(** * vader_cluster_parallel: coordination core of the cluster/disk simulation

    A shallow embedding of [src/vader_cluster_parallel.py] and the
    properties of its partitioner, dispatcher, radiation and mass-loss
    evaluators, encounter resolver and star bookkeeping.

    Conventions of the embedding.
    - Python [int]s are [Z]; [//] and [%] are [Z.div] and [Z.modulo]
      (both round towards minus infinity, as Python does).
    - Physical quantities are real numbers ([R]): the value of the
      quantity in one coherent system of units (lengths in au, masses in
      MSun).  [x.value_in(units.cm)] is then [x * au_cm] for a fixed
      conversion constant, and AMUSE's unit bookkeeping disappears.
      Rounding of binary floating point is not modelled.
    - A Python exception is [None] in the [option] monad.
    - Module globals that functions mutate are threaded explicitly. *)

From Stdlib Require Import ZArith Reals Lra Lia.
From stdpp Require Import base option list gmap.

Set Default Proof Using "Type".

(* ===================================================================== *)
(** * Part I: the embedding                                               *)
(* ===================================================================== *)

(** ** Python helpers *)

Module Py.

(** Normalisation of one bound of a slice [l[lo:hi]] for a list of
    length [len]: negative bounds count from the end, and every bound is
    clamped to [0 .. len]. *)
Definition clamp_index (len i : Z) : Z :=
  if (i <? 0)%Z then Z.max 0 (i + len) else Z.min i len.

(** [l[lo:hi]] *)
Definition slice {A} (l : list A) (lo hi : Z) : list A :=
  let len := Z.of_nat (length l) in
  let a := clamp_index len lo in
  let b := clamp_index len hi in
  take (Z.to_nat (b - a)) (drop (Z.to_nat a) l).

(** [for x in xs: st = body(st, x)], where the body may raise. *)
Fixpoint for_each {S X} (body : S → X → option S) (xs : list X) (st : S)
  : option S :=
  match xs with
  | [] => Some st
  | x :: xs' => st' ← body st x; for_each body xs' st'
  end.

(** [range(n)] *)
Definition range (n : Z) : list Z := seqZ 0 n.

End Py.

(** ** Disk pool partitioner: [pool_disks] *)

Module Partition.

Section pool.
Context {Disk : Type}.

(** The local variables the loop of [pool_disks] updates. *)
Record Locals := mkLocals {
  MIN : Z;
  counter : Z;
  disks_pooled : list (list Disk)
}.

(** One iteration of [for i in range(N_cores)].  [disks_pooled[i]]
    raises IndexError when there is no such element. *)
Definition pool_disks_body (disks : list Disk) (N n : Z)
    (st : Locals) (i : Z) : option Locals :=
  let DIFF := if (counter st <? n)%Z then (N + 1)%Z else N in
  let counter' := if (counter st <? n)%Z then (counter st + 1)%Z else counter st in
  let appended := disks_pooled st ++ [[]] in
  target ← appended !! Z.to_nat i;
  Some {| MIN := MIN st + DIFF;
          counter := counter';
          disks_pooled :=
            <[Z.to_nat i := target ++ Py.slice disks (MIN st) (MIN st + DIFF)]> appended |}.

(** [pool_disks(disks, N_cores)]; [None] is the ZeroDivisionError of
    [len(disks) // 0]. *)
Definition pool_disks (disks : list Disk) (N_cores : Z)
  : option (list (list Disk)) :=
  if (N_cores =? 0)%Z then None else
  let N := (Z.of_nat (length disks) / N_cores)%Z in
  let n := (Z.of_nat (length disks) mod N_cores)%Z in
  st ← Py.for_each (pool_disks_body disks N n)
         (Py.range N_cores) (mkLocals 0 0 []);
  Some (disks_pooled st).

End pool.
Global Arguments Locals : clear implicits.

(** The shares the specification names: [N] disks over [W] workers. *)
Definition floor_div (N W : Z) : Z := (N / W)%Z.
Definition ceil_div (N W : Z) : Z := (- ((- N) / W))%Z.

(** Size of the [i]-th partition according to the specification. *)
Definition share (N W i : Z) : Z :=
  if (i <? N mod W)%Z then ceil_div N W else floor_div N W.

(** Start of the [i]-th partition in the input. *)
Definition offset (N W i : Z) : Z :=
  (i * (N / W) + Z.min i (N mod W))%Z.

Section expected.
Context {Disk : Type}.

(** The slice the specification assigns to worker [j]: [share] disks
    starting at [offset]. *)
Definition part (disks : list Disk) (W : Z) (j : nat) : list Disk :=
  let L := Z.of_nat (length disks) in
  take (Z.to_nat (share L W (Z.of_nat j)))
       (drop (Z.to_nat (offset L W (Z.of_nat j))) disks).

Definition parts (disks : list Disk) (W : Z) (k : nat) : list (list Disk) :=
  part disks W <$> seq 0 k.

(** What the loop of [pool_disks] has computed after [k] iterations. *)
Definition loop_inv (disks : list Disk) (W : Z) (k : nat)
    (st : Locals Disk) : Prop :=
  let L := Z.of_nat (length disks) in
  MIN st = offset L W (Z.of_nat k) ∧
  counter st = Z.min (Z.of_nat k) (L mod W) ∧
  disks_pooled st = parts disks W k.
End expected.

End Partition.


(** ** Data model *)

#[global] Instance Rlt_decision : RelDecision Rlt := Rlt_dec.
#[global] Instance Rle_decision : RelDecision Rle := Rle_dec.
#[global] Instance Rgt_decision : RelDecision Rgt := Rgt_dec.

(** Doubles.  [sys.float_info.max] is the largest finite double: an
    operation whose real result lies beyond it gives [inf]. *)
Module Float.
Local Open Scope R_scope.

Definition largest : R := 1.7976931348623157e308.

End Float.

(** Three-vectors: positions and velocities. *)
Module Vec3.
Local Open Scope R_scope.

Record t := mk { x : R; y : R; z : R }.

Definition sub (a b : t) : t := mk (x a - x b) (y a - y b) (z a - z b).

(** [numpy.cross(a, b)] *)
Definition cross (a b : t) : t :=
  mk (y a * z b - z a * y b) (z a * x b - x a * z b) (x a * y b - y a * x b).

(** [a.length()] *)
Definition length (a : t) : R := sqrt (x a ^ 2 + y a ^ 2 + z a ^ 2).
End Vec3.

(** A VADER integrator as [setup_disks_and_codes] configures it: the codes
    are set up alike except for user parameter 3, the temperature
    normalisation [Tm]. *)
Record Code := mkCode {
  code_index : nat;
  Tm : R
}.

(** The attributes of a particle of the set [stars] that the functions
    below read or write. *)
Module Star.
Record t := mk {
  key : Z;
  position : Vec3.t;
  velocity : Vec3.t;
  mass : R;
  stellar_mass : R;
  bright : bool;
  disked : bool;
  EUV : bool;
  disk_radius : R;
  disk_mass : R;
  disk_gas_mass : R;
  disk_dust_mass : R;
  collisional_radius : R;
  total_radiation : R;
  cumulative_truncation_mass_loss : R;
  truncation_mass_loss : R;
  dispersal_time : R;
  last_encounter : R
}.

Definition set_bright (v : bool) (s : t) : t :=
  {| key := key s; position := position s; velocity := velocity s;
     mass := mass s; stellar_mass := stellar_mass s; bright := v;
     disked := disked s; EUV := EUV s; disk_radius := disk_radius s;
     disk_mass := disk_mass s; disk_gas_mass := disk_gas_mass s;
     disk_dust_mass := disk_dust_mass s;
     collisional_radius := collisional_radius s;
     total_radiation := total_radiation s;
     cumulative_truncation_mass_loss := cumulative_truncation_mass_loss s;
     truncation_mass_loss := truncation_mass_loss s;
     dispersal_time := dispersal_time s;
     last_encounter := last_encounter s |}.

Definition set_disked (v : bool) (s : t) : t :=
  {| key := key s; position := position s; velocity := velocity s;
     mass := mass s; stellar_mass := stellar_mass s;
     bright := bright s; disked := v; EUV := EUV s;
     disk_radius := disk_radius s; disk_mass := disk_mass s;
     disk_gas_mass := disk_gas_mass s;
     disk_dust_mass := disk_dust_mass s;
     collisional_radius := collisional_radius s;
     total_radiation := total_radiation s;
     cumulative_truncation_mass_loss := cumulative_truncation_mass_loss s;
     truncation_mass_loss := truncation_mass_loss s;
     dispersal_time := dispersal_time s;
     last_encounter := last_encounter s |}.

Definition set_EUV (v : bool) (s : t) : t :=
  {| key := key s; position := position s; velocity := velocity s;
     mass := mass s; stellar_mass := stellar_mass s;
     bright := bright s; disked := disked s; EUV := v;
     disk_radius := disk_radius s; disk_mass := disk_mass s;
     disk_gas_mass := disk_gas_mass s;
     disk_dust_mass := disk_dust_mass s;
     collisional_radius := collisional_radius s;
     total_radiation := total_radiation s;
     cumulative_truncation_mass_loss := cumulative_truncation_mass_loss s;
     truncation_mass_loss := truncation_mass_loss s;
     dispersal_time := dispersal_time s;
     last_encounter := last_encounter s |}.

Definition set_disk_radius (v : R) (s : t) : t :=
  {| key := key s; position := position s; velocity := velocity s;
     mass := mass s; stellar_mass := stellar_mass s;
     bright := bright s; disked := disked s; EUV := EUV s;
     disk_radius := v; disk_mass := disk_mass s;
     disk_gas_mass := disk_gas_mass s;
     disk_dust_mass := disk_dust_mass s;
     collisional_radius := collisional_radius s;
     total_radiation := total_radiation s;
     cumulative_truncation_mass_loss := cumulative_truncation_mass_loss s;
     truncation_mass_loss := truncation_mass_loss s;
     dispersal_time := dispersal_time s;
     last_encounter := last_encounter s |}.

Definition set_disk_mass (v : R) (s : t) : t :=
  {| key := key s; position := position s; velocity := velocity s;
     mass := mass s; stellar_mass := stellar_mass s;
     bright := bright s; disked := disked s; EUV := EUV s;
     disk_radius := disk_radius s; disk_mass := v;
     disk_gas_mass := disk_gas_mass s;
     disk_dust_mass := disk_dust_mass s;
     collisional_radius := collisional_radius s;
     total_radiation := total_radiation s;
     cumulative_truncation_mass_loss := cumulative_truncation_mass_loss s;
     truncation_mass_loss := truncation_mass_loss s;
     dispersal_time := dispersal_time s;
     last_encounter := last_encounter s |}.

Definition set_disk_gas_mass (v : R) (s : t) : t :=
  {| key := key s; position := position s; velocity := velocity s;
     mass := mass s; stellar_mass := stellar_mass s;
     bright := bright s; disked := disked s; EUV := EUV s;
     disk_radius := disk_radius s; disk_mass := disk_mass s;
     disk_gas_mass := v; disk_dust_mass := disk_dust_mass s;
     collisional_radius := collisional_radius s;
     total_radiation := total_radiation s;
     cumulative_truncation_mass_loss := cumulative_truncation_mass_loss s;
     truncation_mass_loss := truncation_mass_loss s;
     dispersal_time := dispersal_time s;
     last_encounter := last_encounter s |}.

Definition set_disk_dust_mass (v : R) (s : t) : t :=
  {| key := key s; position := position s; velocity := velocity s;
     mass := mass s; stellar_mass := stellar_mass s;
     bright := bright s; disked := disked s; EUV := EUV s;
     disk_radius := disk_radius s; disk_mass := disk_mass s;
     disk_gas_mass := disk_gas_mass s; disk_dust_mass := v;
     collisional_radius := collisional_radius s;
     total_radiation := total_radiation s;
     cumulative_truncation_mass_loss := cumulative_truncation_mass_loss s;
     truncation_mass_loss := truncation_mass_loss s;
     dispersal_time := dispersal_time s;
     last_encounter := last_encounter s |}.

Definition set_collisional_radius (v : R) (s : t) : t :=
  {| key := key s; position := position s; velocity := velocity s;
     mass := mass s; stellar_mass := stellar_mass s;
     bright := bright s; disked := disked s; EUV := EUV s;
     disk_radius := disk_radius s; disk_mass := disk_mass s;
     disk_gas_mass := disk_gas_mass s;
     disk_dust_mass := disk_dust_mass s; collisional_radius := v;
     total_radiation := total_radiation s;
     cumulative_truncation_mass_loss := cumulative_truncation_mass_loss s;
     truncation_mass_loss := truncation_mass_loss s;
     dispersal_time := dispersal_time s;
     last_encounter := last_encounter s |}.

Definition set_cumulative_truncation_mass_loss (v : R) (s : t) : t :=
  {| key := key s; position := position s; velocity := velocity s;
     mass := mass s; stellar_mass := stellar_mass s;
     bright := bright s; disked := disked s; EUV := EUV s;
     disk_radius := disk_radius s; disk_mass := disk_mass s;
     disk_gas_mass := disk_gas_mass s;
     disk_dust_mass := disk_dust_mass s;
     collisional_radius := collisional_radius s;
     total_radiation := total_radiation s;
     cumulative_truncation_mass_loss := v;
     truncation_mass_loss := truncation_mass_loss s;
     dispersal_time := dispersal_time s;
     last_encounter := last_encounter s |}.

Definition set_truncation_mass_loss (v : R) (s : t) : t :=
  {| key := key s; position := position s; velocity := velocity s;
     mass := mass s; stellar_mass := stellar_mass s;
     bright := bright s; disked := disked s; EUV := EUV s;
     disk_radius := disk_radius s; disk_mass := disk_mass s;
     disk_gas_mass := disk_gas_mass s;
     disk_dust_mass := disk_dust_mass s;
     collisional_radius := collisional_radius s;
     total_radiation := total_radiation s;
     cumulative_truncation_mass_loss := cumulative_truncation_mass_loss s;
     truncation_mass_loss := v; dispersal_time := dispersal_time s;
     last_encounter := last_encounter s |}.

Definition set_dispersal_time (v : R) (s : t) : t :=
  {| key := key s; position := position s; velocity := velocity s;
     mass := mass s; stellar_mass := stellar_mass s;
     bright := bright s; disked := disked s; EUV := EUV s;
     disk_radius := disk_radius s; disk_mass := disk_mass s;
     disk_gas_mass := disk_gas_mass s;
     disk_dust_mass := disk_dust_mass s;
     collisional_radius := collisional_radius s;
     total_radiation := total_radiation s;
     cumulative_truncation_mass_loss := cumulative_truncation_mass_loss s;
     truncation_mass_loss := truncation_mass_loss s;
     dispersal_time := v; last_encounter := last_encounter s |}.

Definition set_last_encounter (v : R) (s : t) : t :=
  {| key := key s; position := position s; velocity := velocity s;
     mass := mass s; stellar_mass := stellar_mass s;
     bright := bright s; disked := disked s; EUV := EUV s;
     disk_radius := disk_radius s; disk_mass := disk_mass s;
     disk_gas_mass := disk_gas_mass s;
     disk_dust_mass := disk_dust_mass s;
     collisional_radius := collisional_radius s;
     total_radiation := total_radiation s;
     cumulative_truncation_mass_loss := cumulative_truncation_mass_loss s;
     truncation_mass_loss := truncation_mass_loss s;
     dispersal_time := dispersal_time s; last_encounter := v |}.
End Star.

(** The attributes of a [Disk] object (class [disk_class.Disk]) that this
    file reads or writes. *)
Module Disk.
Record t := mk {
  key : Z;
  disk_radius : R;
  disk_gas_mass : R;
  disk_dust_mass : R;
  disk_mass : R;
  dispersed : bool;
  outer_photoevap_rate : R;
  viscous : option Code
}.

Definition set_dispersed (v : bool) (s : t) : t :=
  {| key := key s; disk_radius := disk_radius s;
     disk_gas_mass := disk_gas_mass s;
     disk_dust_mass := disk_dust_mass s; disk_mass := disk_mass s;
     dispersed := v; outer_photoevap_rate := outer_photoevap_rate s;
     viscous := viscous s |}.

Definition set_viscous (v : option Code) (s : t) : t :=
  {| key := key s; disk_radius := disk_radius s;
     disk_gas_mass := disk_gas_mass s;
     disk_dust_mass := disk_dust_mass s; disk_mass := disk_mass s;
     dispersed := dispersed s;
     outer_photoevap_rate := outer_photoevap_rate s; viscous := v |}.
End Disk.

(** The constants of the AMUSE unit system the code refers to, as values in
    the units of the embedding (lengths in au, masses in MSun). *)
Class Units := {
  G : R;             (* constants.G *)
  au_cm : R;         (* one au in cm: [x.value_in(units.cm)] is [x * au_cm] *)
  LSun_erg_s : R     (* one LSun in erg/s *)
}.

(** The operations this file calls but does not define: the methods of
    [Disk] and the FRIED interpolator. *)
Class Collaborators := {
  (* [disk.truncate(new_radius)]: the disk it returns *)
  truncate : Disk.t → R → Disk.t;
  (* [disk.evolve_disk_for(dt)]: the state of the disk afterwards *)
  evolve_disk_for : Disk.t → R → Disk.t;
  (* [interpolator.interp_amuse(stellar_mass, flux, gas_mass, radius)[0]] *)
  interp_amuse : R → R → R → R → R
}.

(** ** Module globals and the monad of the functions that use them *)

(** [stars], [disks] and [disk_indices]: the globals the evaluators and the
    main loop share.  [disk_indices] maps the key of a star to the position
    of its disk in [disks]. *)
Record Globals := mkGlobals {
  stars : list Star.t;
  disks : list Disk.t;
  disk_indices : gmap Z nat
}.

Definition set_stars (v : list Star.t) (g : Globals) : Globals :=
  {| stars := v; disks := disks g; disk_indices := disk_indices g |}.

(** A computation that reads and writes the globals and may raise. *)
Definition M (A : Type) : Type := Globals → option (A * Globals).

Definition ret {A} (a : A) : M A := λ g, Some (a, g).

Definition bind {A B} (m : M A) (k : A → M B) : M B :=
  λ g, match m g with
       | Some (a, g') => k a g'
       | None => None
       end.

(** An expression that may raise and does not touch the globals. *)
Definition lift {A} (o : option A) : M A :=
  λ g, match o with Some a => Some (a, g) | None => None end.

Definition get_globals : M Globals := λ g, Some (g, g).

Definition modify (f : Globals → Globals) : M unit := λ g, Some (tt, f g).

Declare Scope M_scope.
Delimit Scope M_scope with M.
Notation "'let*' x := m 'in' k" := (bind m (λ x, k))
  (at level 10, x name, m at level 100, k at level 200) : M_scope.
Notation "m ;;; k" := (bind m (λ _, k))
  (at level 100, k at level 200, right associativity) : M_scope.

(** [[f(x) for x in xs]], left to right. *)
Fixpoint map_M {A B} (f : A → M B) (xs : list A) : M (list B) :=
  match xs with
  | [] => ret []
  | x :: xs' =>
      (let* y := f x in
       let* ys := map_M f xs' in
       ret (y :: ys))%M
  end.

(** [for x in xs: acc = body(acc, x)] *)
Fixpoint fold_M {A S} (body : S → A → M S) (xs : list A) (acc : S) : M S :=
  match xs with
  | [] => ret acc
  | x :: xs' => (let* acc' := body acc x in fold_M body xs' acc')%M
  end.

(** ** Particle subsets *)

Module Particles.

(** [stars[stars.key == i]]: the particles a mask selects.  A subset is a
    view: reading an attribute gives the array of its current values, and
    assigning one writes to the selected particles of the set. *)
Definition with_key (i : Z) (ss : list Star.t) : list Star.t :=
  filter (λ s, Star.key s = i) ss.

(** [stars[stars.key == i].attr = v] *)
Definition assign_key (i : Z) (set_attr : Star.t → Star.t)
    (ss : list Star.t) : list Star.t :=
  (λ s, if decide (Star.key s = i) then set_attr s else s) <$> ss.

(** [stars[stars.bright]] *)
Definition bright_ones (ss : list Star.t) : list Star.t :=
  filter (λ s, Star.bright s = true) ss.

(** The truth value of a one-dimensional numpy array in [if a:]: that of
    its element when it has one, false when it is empty, and ValueError
    otherwise. *)
Definition truth (a : list bool) : option bool :=
  match a with
  | [] => Some false
  | [b] => Some b
  | _ => None
  end.

End Particles.

(** ** Radiation field and mass-loss evaluators *)

Module Photoevaporation.
Import Particles.
Local Open Scope R_scope.

(** [G0 = 1.6e-3 * units.erg / units.s / units.cm**2], in erg/s/cm2 *)
Definition G0 : R := 1.6e-3.

(** [distance(star1, star2)] *)
Definition distance (star1 star2 : Star.t) : R :=
  sqrt ((Vec3.x (Star.position star2) - Vec3.x (Star.position star1)) ^ 2
        + (Vec3.y (Star.position star2) - Vec3.y (Star.position star1)) ^ 2
        + (Vec3.z (Star.position star2) - Vec3.z (Star.position star1)) ^ 2).

(** [luminosity_fit(mass)]: [mass] in MSun, the result in LSun.
    [numpy.power(mass, y)] is [Rpower mass y] for the positive masses it
    is applied to here.  The value is a real number; the code computes
    a double, which is [inf] where the real number lies beyond
    [Float.largest]. *)
Definition luminosity_fit (mass : R) : R :=
  if bool_decide (0.12 < mass) && bool_decide (mass < 0.24) then
    1.70294e16 * Rpower mass 42.557
  else if bool_decide (0.24 < mass) && bool_decide (mass < 0.56) then
    9.11137e-9 * Rpower mass 3.8845
  else if bool_decide (0.56 < mass) && bool_decide (mass < 0.70) then
    1.10021e-6 * Rpower mass 12.237
  else if bool_decide (0.70 < mass) && bool_decide (mass < 0.91) then
    2.38690e-4 * Rpower mass 27.199
  else if bool_decide (0.91 < mass) && bool_decide (mass < 1.37) then
    1.02477e-4 * Rpower mass 18.465
  else if bool_decide (1.37 < mass) && bool_decide (mass < 2.07) then
    9.66362e-4 * Rpower mass 11.410
  else if bool_decide (2.07 < mass) && bool_decide (mass < 3.72) then
    6.49335e-2 * Rpower mass 5.6147
  else if bool_decide (3.72 < mass) && bool_decide (mass < 10.0) then
    6.99075e-1 * Rpower mass 3.8058
  else if bool_decide (10.0 < mass) && bool_decide (mass < 20.2) then
    9.73664e0 * Rpower mass 2.6620
  else if bool_decide (20.2 < mass) then
    1.31175e2 * Rpower mass 1.7974
  else 0.

(** [this_star.EUV = v] for [this_star = stars[stars.key == i]] *)
Definition assign_EUV (i : Z) (v : bool) (g : Globals) : Globals :=
  set_stars (assign_key i (Star.set_EUV v) (stars g)) g.

Section evaluators.
Context {U : Units} {C : Collaborators}.

(** The body of [for s in stars[stars.bright]] in
    [single_total_radiation(i)]; the accumulator is [total_radiation]. *)
Definition single_total_radiation_body (i : Z)
    (total_radiation : R) (s : Star.t) : M R :=
  (let* g := get_globals in
   let this_star := with_key i (stars g) in
   let lum := luminosity_fit (Star.stellar_mass s) in
   (* [distance(s, this_star)[0]]: IndexError on an empty subset *)
   let* dist := lift (head (distance s <$> this_star)) in
   let dmin :=
     (λ t, 5 * 1e17 * 0.25 * sqrt (Star.disk_radius t * au_cm / 1e14))
       <$> this_star in
   let* near := lift (truth ((λ dm, bool_decide (dist * au_cm < dm)) <$> dmin)) in
   (if near then modify (assign_EUV i true) else ret tt) ;;;
   let rad := lum * LSun_erg_s in
   let d := dist * au_cm in
   let radiation := rad / (4 * PI * d ^ 2) in
   let radiation_G0 := radiation / G0 in
   ret (total_radiation + radiation_G0))%M.

(** [single_total_radiation(i)] *)
Definition single_total_radiation (i : Z) : M R :=
  (let* g := get_globals in
   if bool_decide (i ∈ Star.key <$> bright_ones (stars g)) then ret 0
   else fold_M (single_total_radiation_body i) (bright_ones (stars g)) 0)%M.

(** The EUV term of [single_photoevaporation_mass_loss], in MSun/yr,
    from the value of [this_star.EUV] and the disk radius in cm. *)
Definition photoevap_Mdot_EUV (EUV : bool) (disk_radius_cm : R) : R :=
  if EUV then 2 * 1e-9 * 3 * 4.12 * (disk_radius_cm / 1e14) else 0.

(** [single_photoevaporation_mass_loss(i)].  [disks[disk_indices[i]]]
    raises KeyError or IndexError when the star has no disk. *)
Definition single_photoevaporation_mass_loss (i : Z) : M R :=
  (let* g := get_globals in
   let this_star := with_key i (stars g) in
   let* j := lift (disk_indices g !! i) in
   let* this_disk := lift (disks g !! j) in
   (* the element [0] of what the interpolator returns for the subset *)
   let* s := lift (head this_star) in
   let photoevap_Mdot_FUV :=
     interp_amuse (Star.stellar_mass s) (Star.total_radiation s)
                  (Disk.disk_gas_mass this_disk) (Disk.disk_radius this_disk) in
   let* euv := lift (truth (Star.EUV <$> this_star)) in
   let EUV_term := photoevap_Mdot_EUV euv (Star.disk_radius s * au_cm) in
   modify (assign_EUV i false) ;;;
   ret (photoevap_Mdot_FUV + EUV_term))%M.

(** [pool = multiprocessing.Pool(processes=nc); pool.map(f, indices)]:
    ValueError when [nc < 1].  The workers of the pool are forked from
    the caller when the pool is made: they work on copies of the
    globals, which are discarded with the pool, and only what the mapped
    function returns reaches the caller, whose globals are as they
    were.  The tasks are followed in the order of [indices] on one
    copy. *)
Definition pool_map (nc : Z) (f : Z → M R) (indices : list Z) : M (list R) :=
  λ g, if (nc <? 1)%Z then None else
       match map_M f indices g with
       | Some (results, _) => Some (results, g)
       | None => None
       end.

(** [total_radiation(indices, nc)] *)
Definition total_radiation (indices : list Z) (nc : Z) : M (list R) :=
  pool_map nc single_total_radiation indices.

(** [photoevaporation_mass_loss(indices, nc)] *)
Definition photoevaporation_mass_loss (indices : list Z) (nc : Z)
  : M (list R) :=
  pool_map nc single_photoevaporation_mass_loss indices.

End evaluators.

(** What [main] hands to the evaluators: the keys of the particle set
    are unique, and every index is the key of a star that has a disk in
    [disks]. *)
Definition well_formed (indices : list Z) (g : Globals) : Prop :=
  NoDup (Star.key <$> stars g)
  ∧ ∀ i, i ∈ indices →
      i ∈ Star.key <$> stars g
      ∧ ∃ j d, disk_indices g !! i = Some j ∧ disks g !! j = Some d.

End Photoevaporation.

(** ** Encounter resolver *)

Module Encounter.
Local Open Scope R_scope.

(** A call [disks[i].truncate(truncation_radius)]: the disk it is called
    on, as it is at the call, and the radius passed. *)
Record TruncateCall := mkCall {
  call_index : Z;
  receiver : Disk.t;
  new_radius : R
}.

(** What [resolve_encounter] works on: the two-element lists [stars] and
    [disks] ([None] in place of a disk for a star without one), and the
    calls of [truncate] made so far. *)
Record State := mkState {
  stars : list Star.t;
  disks : list (option Disk.t);
  calls : list TruncateCall
}.

Section resolver.
Context {U : Units} {C : Collaborators}.

(** [periastron_distance(stars)].  The values [r.value_in(units.au)]
    and [v.value_in(units.m / units.s)] are tagged with the same units
    again before use, so the conversions cancel.  Where floating
    point gives inf or nan (a division by zero, the square root of a
    negative number) the reals of Rocq give some number; the lemmas
    below evaluate the function only where no such operation occurs. *)
Definition periastron_distance (stars : list Star.t) : option R :=
  s0 ← stars !! 0%nat;
  s1 ← stars !! 1%nat;
  let mu := G * (Star.mass s0 + Star.mass s1) in
  let r := Vec3.sub (Star.position s0) (Star.position s1) in
  let v := Vec3.sub (Star.velocity s0) (Star.velocity s1) in
  let E := Vec3.length v ^ 2 / 2 - mu / Vec3.length r in
  let a := - mu / 2 / E in
  let p := Vec3.length (Vec3.cross r v) ^ 2 / mu in
  let e := sqrt (1 - p / a) in
  Some (p / (1 + e)).

(** The body of [for i in range(2)] in [resolve_encounter].  [**] is
    [Rpower] and [/] the division of the reals, which are the operations
    of the code for stars of positive mass.  For a star of mass zero the
    code computes with [0.0], [inf] and [nan], which the reals do not
    have: what is proved about the truncation radius assumes positive
    masses. *)
Definition resolve_encounter_body (time : R)
    (mass_factor_exponent truncation_parameter closest_approach : R)
    (st : State) (i : Z) : option State :=
  let n := Z.to_nat i in
  let other := Z.to_nat (1 - i) in
  (* stars[i].collisional_radius = 0.49 * closest_approach *)
  s ← stars st !! n;
  let s := Star.set_collisional_radius (0.49 * closest_approach) s in
  let st := mkState (<[n := s]> (stars st)) (disks st) (calls st) in
  d ← disks st !! n;
  match d with
  | None => Some st
  | Some disk =>
      s_other ← stars st !! other;
      let truncation_radius :=
        closest_approach * truncation_parameter
        * Rpower (Star.mass s / Star.mass s_other) mass_factor_exponent in
      if bool_decide (truncation_radius < Disk.disk_radius disk) then
        let '(disk, s) :=
          if bool_decide (truncation_radius <= 0.1) then
            let disk := Disk.set_dispersed true disk in
            let s := Star.set_disk_radius truncation_radius s in
            let s := Star.set_disk_mass 0 s in
            let s := Star.set_dispersal_time time s in
            let s := Star.set_truncation_mass_loss (Star.disk_mass s) s in
            let s := Star.set_cumulative_truncation_mass_loss
                       (Star.cumulative_truncation_mass_loss s + Star.disk_mass s) s in
            (disk, s)
          else (disk, s) in
        let new_disk := truncate disk truncation_radius in
        let call := mkCall i disk truncation_radius in
        let new_disk_radius := Disk.disk_radius new_disk in
        let new_disk_mass := Disk.disk_mass new_disk in
        let s := Star.set_last_encounter time s in
        let s := Star.set_disk_radius new_disk_radius s in
        let s := Star.set_disk_mass new_disk_mass s in
        Some (mkState (<[n := s]> (stars st))
                      (<[n := Some new_disk]> (disks st))
                      (calls st ++ [call]))
      else Some st
  end.

(** [resolve_encounter(stars, disks, time, mass_factor_exponent,
    truncation_parameter)] with [verbose=False]; [gamma] is not used. *)
Definition resolve_encounter (stars : list Star.t)
    (disks : list (option Disk.t)) (time : R)
    (mass_factor_exponent truncation_parameter : R) : option State :=
  closest_approach ← periastron_distance stars;
  Py.for_each
    (resolve_encounter_body time mass_factor_exponent truncation_parameter
       closest_approach)
    (Py.range 2) (mkState stars disks []).

(** The call of the main loop: the default
    [mass_factor_exponent=0.2, truncation_parameter=1./3]. *)
Definition resolve_encounter_default (stars : list Star.t)
    (disks : list (option Disk.t)) (time : R) : option State :=
  resolve_encounter stars disks time 0.2 (1 / 3).

End resolver.
End Encounter.

(** ** Integrator pool and parallel dispatch *)

Module Dispatch.
Import Partition.
Local Open Scope R_scope.

(** The integrators of [setup_disks_and_codes], the first half of the
    function: at most one per star, integrator [i] with
    [Tm = 100 * stellar_masses[i] ** (1/4)] as its user parameter 3
    ([**] is [Rpower], for the positive masses of stars). *)
Definition setup_codes (stellar_masses : list R) (number_of_vaders : Z)
  : option (list Code) :=
  let number_of_vaders :=
    if (number_of_vaders <? Z.of_nat (length stellar_masses))%Z
    then number_of_vaders
    else Z.of_nat (length stellar_masses) in
  mapM (λ i, m ← stellar_masses !! Z.to_nat i;
             Some (mkCode (Z.to_nat i) (100 * Rpower m (1 / 4))))
       (Py.range number_of_vaders).

(** [setup_disks_and_codes(star_keys, disk_radii, disk_masses,
    stellar_masses, dispersed_masses, dispersed_densities,
    number_of_vaders, ...)]: the integrators, and then one [Disk] for
    each entry of [stellar_masses].  [new_disk] stands for the
    constructor of [Disk], which gets the entries of the star and the
    grid of the first integrator: [viscous_codes[0]] raises IndexError
    when no integrator was set up, and so does an index beyond the end
    of one of the lists. *)
Definition setup_disks_and_codes
    (new_disk : Z → R → R → R → R → R → Code → Disk.t)
    (star_keys : list Z)
    (disk_radii disk_masses stellar_masses : list R)
    (dispersed_masses dispersed_densities : list R)
    (number_of_vaders : Z) : option (list Code * list Disk.t) :=
  viscous_codes ← setup_codes stellar_masses number_of_vaders;
  let number_of_disks := Z.of_nat (length stellar_masses) in
  disks ← mapM (λ i, key ← star_keys !! Z.to_nat i;
                     disk_radius ← disk_radii !! Z.to_nat i;
                     disk_mass ← disk_masses !! Z.to_nat i;
                     stellar_mass ← stellar_masses !! Z.to_nat i;
                     dispersed_mass ← dispersed_masses !! Z.to_nat i;
                     dispersed_density ← dispersed_densities !! Z.to_nat i;
                     code ← viscous_codes !! 0%nat;
                     Some (new_disk key disk_radius disk_mass stellar_mass
                             dispersed_mass dispersed_density code))
                (Py.range number_of_disks);
  Some (viscous_codes, disks).

(** What [run_disks] puts on [code_queue]. *)
Record Package := mkPackage {
  package_disks : list Disk.t;
  package_viscous : Code;
  package_dt : R
}.

Section dispatch.
Context {C : Collaborators}.

(** [remote_worker_code()] on the package it takes from the queue: the
    disks of the package after the worker has bound each to the code
    and evolved it. *)
Definition remote_worker_code (package : Package) : list Disk.t :=
  (λ disk, evolve_disk_for
             (Disk.set_viscous (Some (package_viscous package)) disk)
             (package_dt package))
    <$> package_disks package.

(** [run_disks(viscous_codes, disks, dt)]: the partitions after every
    worker has finished.  Each thread takes one package; a package
    names its own disks and its own code, so the result does not
    depend on which thread takes which package. *)
Definition run_disks (viscous_codes : list Code) (disks : list Disk.t)
    (dt : R) : option (list (list Disk.t)) :=
  disks_pooled ← pool_disks disks (Z.of_nat (length viscous_codes));
  packages ← mapM (λ i, ds ← disks_pooled !! Z.to_nat i;
                        code ← viscous_codes !! Z.to_nat i;
                        Some (mkPackage ds code dt))
                  (Py.range (Z.of_nat (length viscous_codes)));
  Some (remote_worker_code <$> packages).

End dispatch.
End Dispatch.

(** ** The flags [bright] and [disked] in the main loop *)

Module Bookkeeping.
Local Open Scope R_scope.

(** [stars[mask].attr = v] for a mask computed from each star. *)
Definition assign_where (mask : Star.t → bool) (set_attr : Star.t → Star.t)
    (ss : list Star.t) : list Star.t :=
  (λ s, if mask s then set_attr s else s) <$> ss.

(** The four assignments of [main] that set the flags from the stellar
    mass (in MSun). *)
Definition init_flags (ss : list Star.t) : list Star.t :=
  let ss := assign_where (λ s, bool_decide (Star.stellar_mass s > 1.9))
              (Star.set_bright true) ss in
  let ss := assign_where (λ s, bool_decide (Star.stellar_mass s > 1.9))
              (Star.set_disked false) ss in
  let ss := assign_where (λ s, bool_decide (Star.stellar_mass s <= 1.9))
              (Star.set_bright false) ss in
  assign_where (λ s, bool_decide (Star.stellar_mass s <= 1.9))
    (Star.set_disked true) ss.

(** [disks[disk_indices[key]]]: KeyError or IndexError when there is no
    such disk. *)
Definition disk_of (disks : list Disk.t) (disk_indices : gmap Z nat)
    (key : Z) : option Disk.t :=
  j ← disk_indices !! key;
  disks !! j.

(** The body of [for this_star in stars[stars.disked]] after
    [run_disks]. *)
Definition update_star (disks : list Disk.t) (disk_indices : gmap Z nat)
    (this_star : Star.t) : option Star.t :=
  this_disk ← disk_of disks disk_indices (Star.key this_star);
  let s := Star.set_disked (negb (Disk.dispersed this_disk)) this_star in
  let s := Star.set_disk_radius (Disk.disk_radius this_disk) s in
  let s := Star.set_disk_dust_mass (Disk.disk_dust_mass this_disk) s in
  let s := Star.set_disk_gas_mass (Disk.disk_gas_mass this_disk) s in
  Some (Star.set_disk_mass (Disk.disk_mass this_disk) s).

(** The loop itself: each particle of the subset writes to its own
    entry of [stars]. *)
Definition update_stars (disk_indices : gmap Z nat) (ss : list Star.t)
    (disks : list Disk.t) : option (list Star.t) :=
  mapM (λ s, if Star.disked s then update_star disks disk_indices s
             else Some s) ss.

(** The flags over the steps of the main loop, in a run that is not a
    restart: [init_flags] once, then
    one [update_stars] per step, with the disks as the integrators and
    the encounter resolver have left them in that step.  Nothing else in
    the loop assigns [bright] or [disked]. *)
Definition flags_after_steps (disk_indices : gmap Z nat)
    (ss : list Star.t) (disks_per_step : list (list Disk.t))
  : option (list Star.t) :=
  Py.for_each (update_stars disk_indices) disks_per_step (init_flags ss).

(** The disk of the star with this key is not dispersed in [disks]. *)
Definition not_dispersed_in (disk_indices : gmap Z nat) (key : Z)
    (disks : list Disk.t) : bool :=
  match disk_of disks disk_indices key with
  | Some d => negb (Disk.dispersed d)
  | None => true
  end.

End Bookkeeping.

(** ** The rest of the main loop *)

Module MainLoop.
Local Open Scope R_scope.

(** [map_disk_indices_to_stars(disks)]: the loop keeps the dictionary and
    the counter [i]. *)
Definition map_disk_indices_to_stars (disks : list Disk.t) : gmap Z nat :=
  fst (foldl (λ '(map, i) d, (<[Disk.key d := i]> map, S i)) (∅, 0%nat) disks).

(** The four cases of [main] that choose [encountering_disks] for the
    stars [s0] and [s1] of an encounter; [disks[disk_indices[key]]] raises
    KeyError or IndexError when there is no such disk. *)
Definition encountering_disks (disks : list Disk.t)
    (disk_indices : gmap Z nat) (s0 s1 : Star.t)
  : option (list (option Disk.t)) :=
  if Star.disked s0 && Star.disked s1 then
    disk0 ← Bookkeeping.disk_of disks disk_indices (Star.key s0);
    disk1 ← Bookkeeping.disk_of disks disk_indices (Star.key s1);
    Some [Some disk0; Some disk1]
  else if Star.disked s0 && negb (Star.disked s1) then
    disk0 ← Bookkeeping.disk_of disks disk_indices (Star.key s0);
    Some [Some disk0; None]
  else if negb (Star.disked s0) && Star.disked s1 then
    disk1 ← Bookkeeping.disk_of disks disk_indices (Star.key s1);
    Some [None; Some disk1]
  else Some [None; None].

Section encounters.
Context {U : Units} {C : Collaborators}.

(** The body of [while dynamical_encounter.is_set()] up to the call of
    [resolve_encounter], for the pair the gravity code reports. *)
Definition resolve_reported_encounter (disks : list Disk.t)
    (disk_indices : gmap Z nat) (s0 s1 : Star.t) (time : R)
  : option Encounter.State :=
  ds ← encountering_disks disks disk_indices s0 s1;
  Encounter.resolve_encounter_default [s0; s1] ds time.

End encounters.

(** The time step of one pass through [while t < t_end]:
    [dt = min(dt, t_end - t)]. *)
Definition next_dt (t_end t dt : R) : R := Rmin dt (t_end - t).

(** The simulation times at the end of each pass through
    [while t < t_end], from time [t] with step [dt].  The number of active
    disks after each pass comes from the integrators; the list
    [active_disks] gives it, pass by pass, and the loop is followed for as
    many passes as the list is long.  [break] leaves the loop when no disk
    is active.  The times are real numbers: the code adds [dt] to [t]
    in floating point, where rounding can leave [t] just short of
    [t_end] after the last full step, and the loop then makes one more,
    very short, pass. *)
Fixpoint evolve_times (active_disks : list Z) (t_end t dt : R) : list R :=
  match active_disks with
  | [] => []
  | active :: rest =>
      if bool_decide (t < t_end) then
        let dt := next_dt t_end t dt in
        let t := t + dt in
        t :: (if (active <=? 0)%Z then [] else evolve_times rest t_end t dt)
      else []
  end.

End MainLoop.

(** ** What an encounter leaves alone *)

Module EncounterFrame.
Local Open Scope R_scope.

(** The attributes of a star that [resolve_encounter] has no assignment
    for, and the cumulative truncation mass loss, to which it adds the
    disk mass only after it has set that to zero. *)
Definition untouched (s s' : Star.t) : Prop :=
  Star.key s' = Star.key s
  ∧ Star.position s' = Star.position s
  ∧ Star.velocity s' = Star.velocity s
  ∧ Star.mass s' = Star.mass s
  ∧ Star.stellar_mass s' = Star.stellar_mass s
  ∧ Star.bright s' = Star.bright s
  ∧ Star.disked s' = Star.disked s
  ∧ Star.EUV s' = Star.EUV s
  ∧ Star.disk_gas_mass s' = Star.disk_gas_mass s
  ∧ Star.disk_dust_mass s' = Star.disk_dust_mass s
  ∧ Star.total_radiation s' = Star.total_radiation s
  ∧ Star.cumulative_truncation_mass_loss s'
    = Star.cumulative_truncation_mass_loss s.

(** The calls of [truncate] that [resolve_encounter] can make for star
    [i], whose disk is [d] (or [None]), with truncation radius [r]: none,
    one on the disk as it is, or one on the disk marked dispersed. *)
Definition possible_calls (i : Z) (d : option Disk.t) (r : R)
    (cs : list Encounter.TruncateCall) : Prop :=
  cs = []
  ∨ ∃ disk, d = Some disk
            ∧ (cs = [Encounter.mkCall i disk r]
               ∨ cs = [Encounter.mkCall i (Disk.set_dispersed true disk) r]).

End EncounterFrame.

(** ** The initial conditions of a run that is not a restart *)

Module Initial.
Import Bookkeeping.
Local Open Scope R_scope.

#[global] Instance Rge_decision : RelDecision Rge := Rge_dec.

(** [stars.mass = v] and [stars.stellar_mass = v] for one particle. *)
Definition set_mass (v : R) (s : Star.t) : Star.t :=
  {| Star.key := Star.key s; Star.position := Star.position s;
     Star.velocity := Star.velocity s;
     Star.mass := v; Star.stellar_mass := Star.stellar_mass s;
     Star.bright := Star.bright s; Star.disked := Star.disked s;
     Star.EUV := Star.EUV s; Star.disk_radius := Star.disk_radius s;
     Star.disk_mass := Star.disk_mass s;
     Star.disk_gas_mass := Star.disk_gas_mass s;
     Star.disk_dust_mass := Star.disk_dust_mass s;
     Star.collisional_radius := Star.collisional_radius s;
     Star.total_radiation := Star.total_radiation s;
     Star.cumulative_truncation_mass_loss :=
       Star.cumulative_truncation_mass_loss s;
     Star.truncation_mass_loss := Star.truncation_mass_loss s;
     Star.dispersal_time := Star.dispersal_time s;
     Star.last_encounter := Star.last_encounter s |}.

Definition set_stellar_mass (v : R) (s : Star.t) : Star.t :=
  {| Star.key := Star.key s; Star.position := Star.position s;
     Star.velocity := Star.velocity s;
     Star.mass := Star.mass s; Star.stellar_mass := v;
     Star.bright := Star.bright s; Star.disked := Star.disked s;
     Star.EUV := Star.EUV s; Star.disk_radius := Star.disk_radius s;
     Star.disk_mass := Star.disk_mass s;
     Star.disk_gas_mass := Star.disk_gas_mass s;
     Star.disk_dust_mass := Star.disk_dust_mass s;
     Star.collisional_radius := Star.collisional_radius s;
     Star.total_radiation := Star.total_radiation s;
     Star.cumulative_truncation_mass_loss :=
       Star.cumulative_truncation_mass_loss s;
     Star.truncation_mass_loss := Star.truncation_mass_loss s;
     Star.dispersal_time := Star.dispersal_time s;
     Star.last_encounter := Star.last_encounter s |}.

(** [if len(stars[stars.stellar_mass >= 1.9 | units.MSun]) == 0:
     stars[0].stellar_mass = big_star | units.MSun], where [big_star] is
    the number [numpy.random.uniform(low=2, high=100)] has drawn.
    [stars[0]] raises IndexError on an empty set. *)
Definition add_big_star (big_star : R) (ss : list Star.t)
  : option (list Star.t) :=
  if bool_decide
       (length (filter (λ s, Star.stellar_mass s >= 1.9) ss) = 0%nat)
  then s0 ← ss !! 0%nat; Some (<[0%nat := set_stellar_mass big_star s0]> ss)
  else Some ss.

(** The assignments of [main] from the flags down to [stars.EUV = False],
    for the attributes of the model.  Masses are in MSun and lengths in
    au; [parsec] is the parsec in au.  [m ** 0.5] is [sqrt m]: stellar
    masses are positive. *)
Definition initial_attributes (parsec : R) (ss : list Star.t) : list Star.t :=
  let ss := init_flags ss in
  let ss := assign_where Star.disked
              (λ s, Star.set_disk_radius (30 * sqrt (Star.stellar_mass s)) s)
              ss in
  let ss := assign_where Star.disked
              (λ s, Star.set_disk_mass (0.1 * Star.stellar_mass s) s) ss in
  let ss := assign_where Star.bright (Star.set_disk_radius 0) ss in
  let ss := assign_where Star.bright (Star.set_disk_mass 0) ss in
  let ss := (λ s, set_mass (Star.stellar_mass s + Star.disk_mass s) s)
              <$> ss in
  let ss := Star.set_collisional_radius (0.02 * parsec) <$> ss in
  let ss := assign_where Star.disked
              (Star.set_cumulative_truncation_mass_loss 0) ss in
  Star.set_EUV false <$> ss.

(** The stars as the time loop finds them. *)
Definition initial_stars (big_star parsec : R) (ss : list Star.t)
  : option (list Star.t) :=
  initial_attributes parsec <$> add_big_star big_star ss.

(** What the initial assignments make of one star. *)
Definition initialised (s s' : Star.t) : Prop :=
  Star.key s' = Star.key s
  ∧ Star.stellar_mass s' = Star.stellar_mass s
  ∧ Star.bright s' = bool_decide (Star.stellar_mass s > 1.9)
  ∧ Star.disked s' = negb (Star.bright s')
  ∧ Star.EUV s' = false
  ∧ Star.disk_mass s'
    = (if Star.bright s' then 0 else 0.1 * Star.stellar_mass s)
  ∧ Star.disk_radius s'
    = (if Star.bright s' then 0 else 30 * sqrt (Star.stellar_mass s))
  ∧ Star.mass s' = Star.stellar_mass s' + Star.disk_mass s'.

End Initial.

(** ** Concrete inputs *)

Module Scenarios.
Local Open Scope R_scope.

(** A system of units with lengths in au, masses in MSun and times in
    years over [2 * PI], in which [constants.G] is 1. *)
Definition units : Units :=
  {| G := 1; au_cm := 1.495978707e13; LSun_erg_s := 3.839e33 |}.

(** Stand-ins for the operations of [Disk] and of the interpolator: a
    truncation that cuts the radius and scales the masses with it, an
    evolution that leaves the disk as it is, and a mass-loss table that
    is constant. *)
Definition collaborators : Collaborators :=
  {| truncate := λ d r,
       let f := r / Disk.disk_radius d in
       Disk.mk (Disk.key d) r (f * Disk.disk_gas_mass d)
         (f * Disk.disk_dust_mass d) (f * Disk.disk_mass d)
         (Disk.dispersed d) (Disk.outer_photoevap_rate d) (Disk.viscous d);
     evolve_disk_for := λ d dt, d;
     interp_amuse := λ _ _ _ _, 1e-8 |}.

(** A star at rest at the origin unless told otherwise: every attribute
    that is not an argument is zero or false. *)
Definition star (key : Z) (position velocity : Vec3.t)
    (stellar_mass disk_mass disk_radius collisional_radius : R)
    (bright disked EUV : bool) : Star.t :=
  Star.mk key position velocity (stellar_mass + disk_mass) stellar_mass
    bright disked EUV disk_radius disk_mass disk_mass 0
    collisional_radius 0 0 0 0 0.

(** A disk of the given radius and gas mass, not dispersed. *)
Definition disk (key : Z) (disk_radius disk_mass : R) : Disk.t :=
  Disk.mk key disk_radius disk_mass 0 disk_mass false 0 None.

Definition origin : Vec3.t := Vec3.mk 0 0 0.

(** Two stars of 25 MSun that fly past each other, 50 au apart at their
    closest.  The first has had an encounter before, which left it a
    collisional radius of 1 au; the second still has the initial one,
    0.02 parsec (4125 au). *)
Definition wide_first : Star.t :=
  star 1 (Vec3.mk 50 0 0) (Vec3.mk 0 2 0) 25 0 0 1 true false false.
Definition wide_second : Star.t :=
  star 2 origin origin 25 0 0 4125 true false false.

(** Two stars with disks of 8 au that fly past each other, 0.15 au
    apart at their closest: the truncation radius of each is 0.05 au. *)
Definition close_first : Star.t :=
  star 1 (Vec3.mk 0.15 0 0) (Vec3.mk 0 2 0) 0.07 0.005 8 4125 false true false.
Definition close_second : Star.t :=
  star 2 origin origin 0.07 0.005 8 4125 false true false.
Definition close_first_disk : Disk.t := disk 1 8 0.005.
Definition close_second_disk : Disk.t := disk 2 8 0.005.

(** Two stars with disks of 30 au, 1 au apart and at rest with respect
    to each other. *)
Definition rest_first : Star.t :=
  star 1 (Vec3.mk 1 0 0) origin 0.5 0.05 30 4125 false true false.
Definition rest_second : Star.t :=
  star 2 origin origin 0.5 0.05 30 4125 false true false.
Definition rest_first_disk : Disk.t := disk 1 30 0.05.
Definition rest_second_disk : Disk.t := disk 2 30 0.05.

(** A star of 0.5 MSun with a disk of 21 au, and that disk once it has
    dispersed. *)
Definition small_star : Star.t :=
  star 7 origin origin 0.5 0.05 21 4125 false false false.
Definition small_star_disk : Disk.t := disk 7 21 0.05.
Definition small_star_disk_dispersed : Disk.t :=
  Disk.set_dispersed true small_star_disk.
Definition small_star_index : gmap Z nat := {[ 7%Z := 0%nat ]}.

(** A cluster of two: a bright star of 5 MSun, 1000 au from the small
    star and its disk. *)
Definition bright_star : Star.t :=
  star 1 (Vec3.mk 1000 0 0) origin 5 0 0 4125 true false false.
Definition lit_small_star : Star.t :=
  star 7 origin origin 0.5 0.05 21 4125 false true false.
Definition cluster : Globals :=
  mkGlobals [bright_star; lit_small_star] [small_star_disk] small_star_index.

End Scenarios.

(** ** More concrete inputs *)

Module MoreScenarios.
Import Scenarios.
Local Open Scope R_scope.

(** Two stars with disks of 8 au that fly past each other, 0.6 au apart
    at their closest: the truncation radius of each is 0.2 au. *)
Definition graze_first : Star.t :=
  star 1 (Vec3.mk 0.6 0 0) (Vec3.mk 0 2 0) 0.27 0.03 8 4125 false true false.
Definition graze_second : Star.t :=
  star 2 origin origin 0.27 0.03 8 4125 false true false.
Definition graze_first_disk : Disk.t := disk 1 8 0.03.
Definition graze_second_disk : Disk.t := disk 2 8 0.03.

(** Two stars with disks of half an au that fly past each other, 3 au
    apart at their closest: the truncation radius of each is 1 au, and
    neither disk reaches that far. *)
Definition far_first : Star.t :=
  star 1 (Vec3.mk 3 0 0) (Vec3.mk 0 2 0) 1.4 0.1 0.5 4125 false true false.
Definition far_second : Star.t :=
  star 2 origin origin 1.4 0.1 0.5 4125 false true false.
Definition far_first_disk : Disk.t := disk 1 0.5 0.1.
Definition far_second_disk : Disk.t := disk 2 0.5 0.1.

(** The small star of the cluster with a given received radiation and
    EUV flag, and the cluster with that star in it. *)
Definition irradiated_small_star (radiation : R) (EUV : bool) : Star.t :=
  Star.mk 7 origin origin (0.5 + 0.05) 0.5 false true EUV 21 0.05 0.05 0
    4125 radiation 0 0 0 0.
Definition irradiated_cluster (radiation : R) (EUV : bool) : Globals :=
  mkGlobals [bright_star; irradiated_small_star radiation EUV]
    [small_star_disk] small_star_index.

(** A stand-in for the constructor of [Disk]: the disk has the radius
    and the mass it is given, all of it gas. *)
Definition new_disk (key : Z)
    (disk_radius disk_mass stellar_mass : R)
    (dispersed_mass dispersed_density : R) (code : Code) : Disk.t :=
  disk key disk_radius disk_mass.

(** One integrator, set up for a star of 1 MSun. *)
Definition one_code : Code := mkCode 0 100.

(** Three passes of the time loop with 3, 2 and 1 active disks, on the
    way from 0 to 2500 yr in steps of 1000 yr. *)
Definition active_counts : list Z := [3; 2; 1]%Z.

End MoreScenarios.
(* ===================================================================== *)
(** * Part II: verification                                               *)
(* ===================================================================== *)

Module PyFacts.
Import Py.

Lemma slice_nonneg {A} (l : list A) (lo hi : Z) :
  (0 ≤ lo ≤ hi)%Z →
  slice l lo hi = take (Z.to_nat (hi - lo)) (drop (Z.to_nat lo) l).
Proof.
  intros Hb. unfold slice, clamp_index.
  destruct (Z.ltb_spec lo 0); [lia|].
  destruct (Z.ltb_spec hi 0); [lia|].
  set (len := Z.of_nat (length l)).
  destruct (Z.le_gt_cases lo len) as [Hlo|Hlo].
  - rewrite (Z.min_l lo len) by lia.
    destruct (Z.le_gt_cases hi len) as [Hhi|Hhi].
    + by rewrite (Z.min_l hi len) by lia.
    + rewrite (Z.min_r hi len) by lia.
      rewrite !take_ge; [done| |]; rewrite length_drop; subst len; lia.
  - rewrite (Z.min_r lo len), (Z.min_r hi len) by lia.
    rewrite !drop_ge by (subst len; lia). by rewrite !take_nil.
Qed.

End PyFacts.

Module PartitionFacts.
Import Py PyFacts Partition.

Section facts.
Context {Disk : Type}.
Implicit Types (disks : list Disk) (W : Z) (k : nat).

Lemma ceil_div_floor (L W : Z) :
  (1 ≤ W)%Z →
  ceil_div L W = if (L mod W =? 0)%Z then (L / W)%Z else (L / W + 1)%Z.
Proof.
  intros HW. unfold ceil_div.
  destruct (Z.eqb_spec (L mod W) 0) as [E|E].
  - rewrite Z.div_opp_l_z by lia. lia.
  - rewrite Z.div_opp_l_nz by lia. lia.
Qed.

Lemma share_cases (L W i : Z) :
  (1 ≤ W)%Z → (0 ≤ i)%Z →
  share L W i = if (i <? L mod W)%Z then (L / W + 1)%Z else (L / W)%Z.
Proof.
  intros HW Hi. unfold share, floor_div. rewrite ceil_div_floor by done.
  destruct (Z.ltb_spec i (L mod W)); [|done].
  destruct (Z.eqb_spec (L mod W) 0); [lia|done].
Qed.

Lemma offset_succ (L W i : Z) :
  (1 ≤ W)%Z → (0 ≤ i)%Z →
  offset L W (i + 1) = (offset L W i + share L W i)%Z.
Proof.
  intros HW Hi. rewrite share_cases by done. unfold offset.
  destruct (Z.ltb_spec i (L mod W)); lia.
Qed.

Lemma offset_all (L W : Z) :
  (1 ≤ W)%Z → (0 ≤ L)%Z → offset L W W = L.
Proof.
  intros HW HL. unfold offset.
  pose proof (Z.mod_pos_bound L W ltac:(lia)).
  pose proof (Z.div_mod L W ltac:(lia)). lia.
Qed.

Lemma share_nonneg (L W i : Z) :
  (1 ≤ W)%Z → (0 ≤ L)%Z → (0 ≤ i)%Z → (0 ≤ share L W i)%Z.
Proof.
  intros HW HL Hi. rewrite share_cases by done.
  pose proof (Z.div_pos L W HL ltac:(lia)).
  destruct (_ <? _)%Z; lia.
Qed.

Lemma offset_nonneg (L W i : Z) :
  (1 ≤ W)%Z → (0 ≤ L)%Z → (0 ≤ i)%Z → (0 ≤ offset L W i)%Z.
Proof.
  intros HW HL Hi. unfold offset.
  pose proof (Z.div_pos L W HL ltac:(lia)).
  pose proof (Z.mod_pos_bound L W ltac:(lia)). nia.
Qed.

Lemma length_parts disks W k : length (parts disks W k) = k.
Proof. unfold parts. by rewrite length_fmap, length_seq. Qed.

Lemma parts_S disks W k :
  parts disks W (S k) = parts disks W k ++ [part disks W k].
Proof. unfold parts. by rewrite seq_S, fmap_app. Qed.

Lemma lookup_parts disks W k (j : nat) :
  j < k → parts disks W k !! j = Some (part disks W j).
Proof.
  intros Hj. unfold parts. rewrite list_lookup_fmap, lookup_seq_lt by done.
  done.
Qed.

(** The partitions lie next to each other: the first [k] of them make
    up the prefix of the input that ends where partition [k] starts. *)
Lemma concat_parts disks W k :
  (1 ≤ W)%Z →
  concat (parts disks W k)
  = take (Z.to_nat (offset (Z.of_nat (length disks)) W (Z.of_nat k))) disks.
Proof.
  intros HW. induction k as [|k IH].
  - unfold offset. simpl. rewrite Z.min_l; [done|].
    apply Z.mod_pos_bound. lia.
  - rewrite parts_S, concat_app, IH. simpl. rewrite app_nil_r.
    unfold part. rewrite take_take_drop. f_equal.
    replace (Z.of_nat (S k)) with (Z.of_nat k + 1)%Z by lia.
    rewrite offset_succ by lia.
    pose proof (share_nonneg (Z.of_nat (length disks)) W (Z.of_nat k)).
    pose proof (offset_nonneg (Z.of_nat (length disks)) W (Z.of_nat k)). lia.
Qed.

Lemma pool_disks_body_inv disks W k st :
  (1 ≤ W)%Z →
  loop_inv disks W k st →
  ∃ st', pool_disks_body disks (Z.of_nat (length disks) / W)
             (Z.of_nat (length disks) mod W) st (Z.of_nat k) = Some st'
         ∧ loop_inv disks W (S k) st'.
Proof.
  intros HW (HMIN & Hcnt & Hpool). unfold loop_inv.
  set (L := Z.of_nat (length disks)) in *.
  assert (0 ≤ L)%Z by (subst L; lia).
  unfold pool_disks_body. rewrite Hpool, Nat2Z.id.
  rewrite lookup_app_r by (rewrite length_parts; lia).
  rewrite length_parts, Nat.sub_diag. simpl.
  eexists; split; [reflexivity|].
  assert (Hshare : (if (counter st <? L mod W)%Z
                    then (L / W + 1)%Z else (L / W)%Z) = share L W (Z.of_nat k)).
  { rewrite share_cases, Hcnt by lia.
    destruct (Z.ltb_spec (Z.of_nat k) (L mod W)),
      (Z.ltb_spec (Z.min (Z.of_nat k) (L mod W)) (L mod W));
      lia. }
  split; [|split]; cbn [MIN counter disks_pooled].
  - rewrite Hshare, HMIN.
    replace (Z.of_nat (S k)) with (Z.of_nat k + 1)%Z by lia.
    by rewrite offset_succ by lia.
  - rewrite Hcnt.
    destruct (Z.ltb_spec (Z.min (Z.of_nat k) (L mod W)) (L mod W)); lia.
  - rewrite Hshare, HMIN, parts_S.
    rewrite insert_app_r_alt by (rewrite length_parts; lia).
    rewrite length_parts, Nat.sub_diag. simpl. do 2 f_equal.
    pose proof (share_nonneg L W (Z.of_nat k)).
    pose proof (offset_nonneg L W (Z.of_nat k)).
    rewrite slice_nonneg by lia. unfold part. fold L.
    do 2 f_equal. lia.
Qed.

Lemma for_each_inv disks W (m k : nat) st :
  (1 ≤ W)%Z →
  loop_inv disks W k st →
  ∃ st', for_each (pool_disks_body disks (Z.of_nat (length disks) / W)
                     (Z.of_nat (length disks) mod W))
           (seqZ (Z.of_nat k) (Z.of_nat m)) st = Some st'
         ∧ loop_inv disks W (k + m) st'.
Proof.
  intros HW. revert k st. induction m as [|m IH]; intros k st Hinv.
  - simpl. rewrite Nat.add_0_r. eauto.
  - rewrite seqZ_cons by lia. simpl.
    destruct (pool_disks_body_inv disks W k st HW Hinv) as (st1 & -> & Hinv1).
    simpl. replace (Z.succ (Z.of_nat k)) with (Z.of_nat (S k)) by lia.
    replace (Z.pred (Z.of_nat (S m))) with (Z.of_nat m) by lia.
    destruct (IH (S k) st1 Hinv1) as (st2 & -> & Hinv2).
    exists st2. split; [done|]. by replace (k + S m) with (S k + m) by lia.
Qed.

(** [pool_disks] returns the partitions of the specification. *)
Lemma pool_disks_parts disks W :
  (1 ≤ W)%Z → pool_disks disks W = Some (parts disks W (Z.to_nat W)).
Proof.
  intros HW. unfold pool_disks, range.
  destruct (Z.eqb_spec W 0); [lia|].
  assert (Hinit : loop_inv disks W 0 (mkLocals 0 0 [])).
  { unfold loop_inv, offset. simpl.
    pose proof (Z.mod_pos_bound (Z.of_nat (length disks)) W ltac:(lia)).
    rewrite Z.min_l by lia. done. }
  destruct (for_each_inv disks W (Z.to_nat W) 0 _ HW Hinit)
    as (st & Hrun & _ & _ & Hpool).
  rewrite Z2Nat.id in Hrun by lia. change (Z.of_nat 0) with 0%Z in Hrun.
  rewrite Hrun. simpl. by rewrite Hpool.
Qed.

Lemma offset_le_length (L W i : Z) :
  (1 ≤ W)%Z → (0 ≤ L)%Z → (0 ≤ i ≤ W)%Z → (offset L W i ≤ L)%Z.
Proof.
  intros HW HL Hi. unfold offset.
  pose proof (Z.div_pos L W HL ltac:(lia)).
  pose proof (Z.mod_pos_bound L W ltac:(lia)).
  pose proof (Z.div_mod L W ltac:(lia)). nia.
Qed.

Lemma length_part disks W (j : nat) :
  (1 ≤ W)%Z → (Z.of_nat j < W)%Z →
  Z.of_nat (length (part disks W j))
  = share (Z.of_nat (length disks)) W (Z.of_nat j).
Proof.
  intros HW Hj. unfold part. rewrite length_take, length_drop.
  set (L := Z.of_nat (length disks)).
  pose proof (share_nonneg L W (Z.of_nat j) HW ltac:(lia) ltac:(lia)).
  pose proof (offset_nonneg L W (Z.of_nat j) HW ltac:(lia) ltac:(lia)).
  pose proof (offset_le_length L W (Z.of_nat j + 1) HW ltac:(lia) ltac:(lia)) as Hle.
  rewrite offset_succ in Hle by lia. lia.
Qed.

(** [pool_disks] returns, with one list per worker, and the lists put
    end to end are the input. *)
Lemma pool_disks_total disks W :
  (1 ≤ W)%Z →
  pool_disks disks W = Some (parts disks W (Z.to_nat W))
  ∧ length (parts disks W (Z.to_nat W)) = Z.to_nat W
  ∧ concat (parts disks W (Z.to_nat W)) = disks.
Proof.
  intros HW. split; [by apply pool_disks_parts|].
  split; [by apply length_parts|].
  rewrite concat_parts by done. rewrite Z2Nat.id by lia.
  rewrite offset_all by lia. rewrite Nat2Z.id. apply firstn_all.
Qed.

(** C1: for every ordered sequence of disks and every worker count
    [W >= 1], [pool_disks] returns exactly [W] lists; their
    concatenation is the input, in order; list [i] is the contiguous
    slice of the input that starts at [offset] (the total size of the
    lists before it); the first [N mod W] lists have [ceil(N/W)]
    elements and the others [floor(N/W)]; and the sizes of any two
    lists differ by at most 1. *)
Theorem pool_disks_balanced_contiguous disks W :
  (1 ≤ W)%Z →
  let N := Z.of_nat (length disks) in
  ∃ pools : list (list Disk),
    pool_disks disks W = Some pools ∧
    length pools = Z.to_nat W ∧
    concat pools = disks ∧
    (∀ i : nat, (Z.of_nat i < W)%Z →
       ∃ p, pools !! i = Some p ∧
            p = take (length p) (drop (Z.to_nat (offset N W (Z.of_nat i))) disks) ∧
            Z.of_nat (length p)
            = if (Z.of_nat i <? N mod W)%Z then ceil_div N W else floor_div N W) ∧
    (∀ p q, p ∈ pools → q ∈ pools → length p ≤ length q + 1).
Proof.
  intros HW N. exists (parts disks W (Z.to_nat W)).
  assert (Hlen : ∀ i : nat, (Z.of_nat i < W)%Z →
            Z.of_nat (length (part disks W i)) = share N W (Z.of_nat i))
    by (intros; by apply length_part).
  split; [by apply pool_disks_parts|].
  split; [by apply length_parts|].
  split.
  { rewrite concat_parts by done. rewrite Z2Nat.id by lia.
    rewrite offset_all by lia. rewrite Nat2Z.id. apply firstn_all. }
  split.
  - intros i Hi. exists (part disks W i).
    split; [apply lookup_parts; lia|]. split; [|by apply Hlen].
    unfold part at 1. fold N. f_equal.
    apply Nat2Z.inj. rewrite (Hlen i Hi).
    pose proof (share_nonneg N W (Z.of_nat i)). lia.
  - intros p q Hp Hq.
    apply list_elem_of_lookup in Hp as [i Hp], Hq as [j Hq].
    pose proof (lookup_lt_Some _ _ _ Hp) as Hi.
    pose proof (lookup_lt_Some _ _ _ Hq) as Hj.
    rewrite length_parts in Hi, Hj.
    rewrite lookup_parts in Hp, Hq by done.
    injection Hp as <-. injection Hq as <-.
    pose proof (Hlen i ltac:(lia)) as Hli.
    pose proof (Hlen j ltac:(lia)) as Hlj.
    rewrite share_cases in Hli, Hlj by lia.
    destruct (_ <? _)%Z, (_ <? _)%Z; lia.
Qed.

(** C10: for every list of disks and every [N_cores >= 1],
    [pool_disks] returns (it does not raise) exactly [N_cores] lists
    whose concatenation is the input; when [N_cores] exceeds the
    number of disks, list [i] holds exactly disk [i] for every [i]
    below [len(disks)], and the other [N_cores - len(disks)] lists are
    empty. *)
Theorem pool_disks_more_workers_than_disks disks (N_cores : Z) :
  (1 ≤ N_cores)%Z →
  ∃ pools : list (list Disk),
    pool_disks disks N_cores = Some pools ∧
    length pools = Z.to_nat N_cores ∧
    concat pools = disks ∧
    ((Z.of_nat (length disks) < N_cores)%Z →
       (∀ (i : nat) d, disks !! i = Some d → pools !! i = Some [d]) ∧
       (∀ i : nat, length disks ≤ i < Z.to_nat N_cores → pools !! i = Some [])).
Proof.
  intros HW. exists (parts disks N_cores (Z.to_nat N_cores)).
  split; [by apply pool_disks_parts|].
  split; [by apply length_parts|].
  split.
  { rewrite concat_parts by done. rewrite Z2Nat.id by lia.
    rewrite offset_all by lia. rewrite Nat2Z.id. apply firstn_all. }
  intros Hmore.
  set (L := Z.of_nat (length disks)).
  assert (Hdiv : (L / N_cores = 0)%Z) by (apply Z.div_small; lia).
  assert (Hmod : (L mod N_cores = L)%Z) by (apply Z.mod_small; lia).
  assert (Hpart : ∀ i : nat,
             part disks N_cores i
             = take (if (Z.of_nat i <? L)%Z then 1 else 0) (drop i disks)).
  { intros i. unfold part. fold L.
    rewrite share_cases by lia. unfold offset. rewrite Hdiv, Hmod.
    destruct (Z.ltb_spec (Z.of_nat i) L).
    - do 2 f_equal. lia.
    - simpl. by rewrite !take_0. }
  split.
  - intros i d Hd. pose proof (lookup_lt_Some _ _ _ Hd) as Hi.
    rewrite lookup_parts by lia. f_equal. rewrite Hpart.
    destruct (Z.ltb_spec (Z.of_nat i) L); [|lia].
    apply list_eq. intros [|k]; simpl.
    + by rewrite lookup_take_lt, lookup_drop, Nat.add_0_r by lia.
    + rewrite lookup_take_ge by lia. done.
  - intros i [Hlo Hhi]. rewrite lookup_parts by lia. f_equal.
    rewrite Hpart. destruct (Z.ltb_spec (Z.of_nat i) L); [lia|].
    by rewrite take_0.
Qed.

End facts.
End PartitionFacts.

Module LuminosityFacts.
Import Photoevaporation.
Local Open Scope R_scope.

Lemma Rpower_pos (x y : R) : 0 < Rpower x y.
Proof. unfold Rpower. apply exp_pos. Qed.

(** Decide the comparisons of [luminosity_fit] from the hypotheses. *)
Ltac decide_segments :=
  unfold luminosity_fit;
  repeat (case_bool_decide; cbn [andb]; try lra).

Lemma luminosity_fit_inside (mass : R) :
  (0.12 < mass < 0.24) ∨ (0.24 < mass < 0.56) ∨ (0.56 < mass < 0.70)
  ∨ (0.70 < mass < 0.91) ∨ (0.91 < mass < 1.37) ∨ (1.37 < mass < 2.07)
  ∨ (2.07 < mass < 3.72) ∨ (3.72 < mass < 10.0) ∨ (10.0 < mass < 20.2)
  ∨ (20.2 < mass) →
  0 < luminosity_fit mass.
Proof.
  intros Hseg. unfold luminosity_fit.
  repeat (case_bool_decide; cbn [andb]);
    try (apply Rmult_lt_0_compat; [lra | apply Rpower_pos]); lra.
Qed.

Lemma luminosity_fit_outside (mass : R) :
  mass <= 0.12 ∨ mass = 0.24 ∨ mass = 0.56 ∨ mass = 0.70 ∨ mass = 0.91
  ∨ mass = 1.37 ∨ mass = 2.07 ∨ mass = 3.72 ∨ mass = 10.0 ∨ mass = 20.2 →
  luminosity_fit mass = 0.
Proof. intros Hout. decide_segments. Qed.

(** *** The size of the values *)

(** A power with a base of at most [b] and an exponent of at most [n]
    is at most [b ^ n]. *)
Lemma Rpower_le_pow (x e b : R) (n : nat) :
  0 < x <= b → 1 <= b → 0 <= e <= INR n → Rpower x e <= b ^ n.
Proof.
  intros Hx Hb He.
  rewrite <- Rpower_pow by lra.
  etransitivity; [apply Rle_Rpower_l; [lra|exact Hx]|].
  apply Rle_Rpower; lra.
Qed.

Lemma luminosity_fit_below_20 (c e mass : R) :
  0 <= c <= 1.70294e16 → 0 <= e <= 43 → 0 < mass < 32 →
  c * Rpower mass e < Float.largest.
Proof.
  intros Hc He Hm.
  assert (Hp : Rpower mass e <= 32 ^ 43).
  { apply Rpower_le_pow; [lra|lra|]. simpl. lra. }
  pose proof (Rpower_pos mass e) as Hpos.
  assert (Hprod : c * Rpower mass e <= 1.70294e16 * 32 ^ 43).
  { apply Rmult_le_compat; lra. }
  unfold Float.largest. lra.
Qed.

Lemma luminosity_fit_finite (mass : R) :
  mass <= 1e150 → luminosity_fit mass < Float.largest.
Proof.
  intros Hm. unfold luminosity_fit.
  repeat (case_bool_decide; cbn [andb]);
    try (apply luminosity_fit_below_20; lra);
    try (unfold Float.largest; lra).
  assert (Hp : Rpower mass 1.7974 <= 1e150 ^ 2).
  { apply Rpower_le_pow; [lra|lra|]. simpl. lra. }
  pose proof (Rpower_pos mass 1.7974) as Hpos.
  unfold Float.largest. lra.
Qed.

Lemma Rpower_1e200 : 1e20 ^ 17 <= Rpower 1e200 1.7974.
Proof.
  etransitivity; [|apply (Rle_Rpower 1e200 1.7 1.7974); lra].
  replace 1e200 with (Rpower 1e20 (INR 10))
    by (rewrite Rpower_pow by lra; lra).
  rewrite Rpower_mult.
  replace (INR 10 * 1.7) with (INR 17) by (simpl; lra).
  rewrite Rpower_pow by lra. lra.
Qed.

(** C6, as the code has it: [luminosity_fit] is strictly positive for
    every mass strictly inside one of the ten segments, in particular at
    1, 2, 5, 15 and 25 MSun, and it is zero for every mass at or below
    0.12 MSun and at each of the nine segment boundaries.  For every
    mass up to 1e150 MSun the value lies below the largest double, so
    that the double the code computes is finite; the tenth segment has
    no upper end, and the value does not stay below the largest double
    on it. *)
Theorem luminosity_fit_positive_inside_zero_at_boundaries :
  (∀ mass : R,
     (0.12 < mass < 0.24) ∨ (0.24 < mass < 0.56) ∨ (0.56 < mass < 0.70)
     ∨ (0.70 < mass < 0.91) ∨ (0.91 < mass < 1.37) ∨ (1.37 < mass < 2.07)
     ∨ (2.07 < mass < 3.72) ∨ (3.72 < mass < 10.0) ∨ (10.0 < mass < 20.2)
     ∨ (20.2 < mass) →
     0 < luminosity_fit mass) ∧
  (∀ mass : R, mass <= 1e150 → luminosity_fit mass < Float.largest) ∧
  (0 < luminosity_fit 1.0 ∧ 0 < luminosity_fit 2.0 ∧ 0 < luminosity_fit 5.0
   ∧ 0 < luminosity_fit 15.0 ∧ 0 < luminosity_fit 25.0) ∧
  (∀ mass : R, mass <= 0.12 → luminosity_fit mass = 0) ∧
  (luminosity_fit 0.24 = 0 ∧ luminosity_fit 0.56 = 0 ∧ luminosity_fit 0.70 = 0
   ∧ luminosity_fit 0.91 = 0 ∧ luminosity_fit 1.37 = 0 ∧ luminosity_fit 2.07 = 0
   ∧ luminosity_fit 3.72 = 0 ∧ luminosity_fit 10.0 = 0 ∧ luminosity_fit 20.2 = 0).
Proof.
  split; [exact luminosity_fit_inside|].
  split; [exact luminosity_fit_finite|].
  split; [repeat split; apply luminosity_fit_inside; lra|].
  split; [intros mass Hm; apply luminosity_fit_outside; by left|].
  repeat split; apply luminosity_fit_outside; lra.
Qed.

(** C6 fails: a mass of 1e200 MSun lies strictly inside the tenth
    segment, and the luminosity of the fit for it lies beyond the largest
    double: the code returns [inf], which is not finite. *)
Lemma luminosity_fit_overflows :
  20.2 < 1e200 ∧ Float.largest < luminosity_fit 1e200.
Proof.
  split; [lra|].
  assert (Hfit : luminosity_fit 1e200 = 1.31175e2 * Rpower 1e200 1.7974).
  { unfold luminosity_fit.
    repeat (case_bool_decide; cbn [andb]; try lra). }
  rewrite Hfit. pose proof Rpower_1e200 as Hp.
  unfold Float.largest. lra.
Qed.

End LuminosityFacts.

Module EncounterFacts.
Import Encounter.
Local Open Scope R_scope.

Section facts.
Context {U : Units} {C : Collaborators}.

Lemma length_of_squares (a : Vec3.t) (l : R) :
  0 <= l →
  Vec3.x a ^ 2 + Vec3.y a ^ 2 + Vec3.z a ^ 2 = l ^ 2 →
  Vec3.length a = l.
Proof.
  intros Hl Hsq. unfold Vec3.length. rewrite Hsq.
  replace (l ^ 2) with (l * l) by ring. by apply sqrt_square.
Qed.

(** Two stars at rest with respect to each other: the angular momentum
    vanishes, and with it the semi-latus rectum and the periastron
    distance. *)
Lemma periastron_distance_at_rest (s0 s1 : Star.t) :
  Star.velocity s0 = Star.velocity s1 →
  periastron_distance [s0; s1] = Some 0.
Proof.
  intros Hv. unfold periastron_distance. simpl. f_equal.
  rewrite Hv.
  set (r := Vec3.sub (Star.position s0) (Star.position s1)).
  assert (Hcross : Vec3.length
            (Vec3.cross r (Vec3.sub (Star.velocity s1) (Star.velocity s1))) = 0).
  { apply length_of_squares; [lra|]. simpl. ring. }
  rewrite Hcross. unfold Rdiv. ring.
Qed.

(** A hyperbolic fly-by seen at its closest approach: the stars are
    [d] apart and pass each other at twice the circular speed, so the
    eccentricity is 3 and the periastron distance is [d]. *)
Lemma periastron_distance_flyby (s0 s1 : Star.t) (d : R) :
  0 < d →
  Vec3.sub (Star.position s0) (Star.position s1) = Vec3.mk d 0 0 →
  Vec3.sub (Star.velocity s0) (Star.velocity s1) = Vec3.mk 0 2 0 →
  G * (Star.mass s0 + Star.mass s1) = d →
  periastron_distance [s0; s1] = Some d.
Proof.
  intros Hd Hr Hv Hmu. unfold periastron_distance. simpl. f_equal.
  rewrite Hr, Hv, Hmu.
  rewrite (length_of_squares (Vec3.mk 0 2 0) 2) by (simpl; lra).
  rewrite (length_of_squares (Vec3.mk d 0 0) d) by (simpl; lra).
  rewrite (length_of_squares (Vec3.cross (Vec3.mk d 0 0) (Vec3.mk 0 2 0)) (2 * d))
    by (simpl; try lra; ring).
  match goal with
  | |- context [sqrt ?e] => replace e with (3 * 3) by (field; lra)
  end.
  rewrite sqrt_square by lra. field. lra.
Qed.

Lemma periastron_distance_pair (s0 s1 : Star.t) :
  ∃ closest_approach, periastron_distance [s0; s1] = Some closest_approach.
Proof. unfold periastron_distance. simpl. eauto. Qed.

(** One iteration of the loop on a pair: star [i] gets the collisional
    radius [0.49 * closest_approach], whatever it had, and the other
    star is not touched. *)
Lemma body_first time mfe tp ca s0 s1 d0 d1 cs :
  ∃ s0' d0' cs',
    resolve_encounter_body time mfe tp ca (mkState [s0; s1] [d0; d1] cs) 0
    = Some (mkState [s0'; s1] [d0'; d1] cs')
    ∧ Star.collisional_radius s0' = 0.49 * ca
    ∧ Star.mass s0' = Star.mass s0.
Proof.
  unfold resolve_encounter_body. destruct d0 as [disk|]; simpl.
  - repeat case_bool_decide; simpl; eauto 10.
  - eauto 10.
Qed.

Lemma body_second time mfe tp ca s0 s1 d0 d1 cs :
  ∃ s1' d1' cs',
    resolve_encounter_body time mfe tp ca (mkState [s0; s1] [d0; d1] cs) 1
    = Some (mkState [s0; s1'] [d0; d1'] cs')
    ∧ Star.collisional_radius s1' = 0.49 * ca.
Proof.
  unfold resolve_encounter_body. destruct d1 as [disk|]; simpl.
  - repeat case_bool_decide; simpl; eauto 10.
  - eauto 10.
Qed.

(** C3, as the code has it: [resolve_encounter] returns for every
    pair, and afterwards the collisional radius of each of the two
    stars is 0.49 times the periastron distance computed for the pair,
    whatever it was before the call (so it is at most its value before
    the call exactly when 0.49 times the periastron distance is). *)
Theorem resolve_encounter_sets_collisional_radius
    (s0 s1 : Star.t) (d0 d1 : option Disk.t) (time mfe tp : R) :
  ∃ closest_approach st s0' s1',
    periastron_distance [s0; s1] = Some closest_approach
    ∧ resolve_encounter [s0; s1] [d0; d1] time mfe tp = Some st
    ∧ stars st = [s0'; s1']
    ∧ Star.collisional_radius s0' = 0.49 * closest_approach
    ∧ Star.collisional_radius s1' = 0.49 * closest_approach
    ∧ (Star.collisional_radius s0' <= Star.collisional_radius s0
       ↔ 0.49 * closest_approach <= Star.collisional_radius s0)
    ∧ (Star.collisional_radius s1' <= Star.collisional_radius s1
       ↔ 0.49 * closest_approach <= Star.collisional_radius s1).
Proof.
  destruct (periastron_distance_pair s0 s1) as [ca Hca].
  unfold resolve_encounter. rewrite Hca. cbn [mbind option_bind].
  change (Py.range 2) with [0%Z; 1%Z]. cbn [Py.for_each].
  destruct (body_first time mfe tp ca s0 s1 d0 d1 []) as (s0' & d0' & cs' & -> & Hr0 & _).
  cbn [mbind option_bind].
  destruct (body_second time mfe tp ca s0' s1 d0' d1 cs') as (s1' & d1' & cs'' & -> & Hr1).
  cbn [mbind option_bind].
  exists ca, (mkState [s0'; s1'] [d0'; d1'] cs''), s0', s1'.
  rewrite Hr0, Hr1. repeat split; auto.
Qed.

(** The dispersal branch, for the first and for the second star: the
    disk is marked dispersed and then truncated all the same, and the
    bookkeeping of the star is overwritten from the disk that
    [truncate] returns.  The lost mass is read after the disk mass has
    been set to zero. *)
Lemma body_first_dispersal time mfe tp ca s0 s1 disk d1 cs :
  let truncation_radius :=
    ca * tp * Rpower (Star.mass s0 / Star.mass s1) mfe in
  truncation_radius < Disk.disk_radius disk →
  truncation_radius <= 0.1 →
  ∃ s0',
    resolve_encounter_body time mfe tp ca
      (mkState [s0; s1] [Some disk; d1] cs) 0
    = Some (mkState [s0'; s1]
              [Some (truncate (Disk.set_dispersed true disk) truncation_radius); d1]
              (cs ++ [mkCall 0 (Disk.set_dispersed true disk) truncation_radius]))
    ∧ Star.collisional_radius s0' = 0.49 * ca
    ∧ Star.mass s0' = Star.mass s0
    ∧ Star.dispersal_time s0' = time
    ∧ Star.truncation_mass_loss s0' = 0
    ∧ Star.cumulative_truncation_mass_loss s0'
      = Star.cumulative_truncation_mass_loss s0 + 0
    ∧ Star.disk_radius s0'
      = Disk.disk_radius (truncate (Disk.set_dispersed true disk) truncation_radius)
    ∧ Star.disk_mass s0'
      = Disk.disk_mass (truncate (Disk.set_dispersed true disk) truncation_radius).
Proof.
  intros tr Hlt Hle. unfold resolve_encounter_body. simpl. fold tr.
  rewrite !bool_decide_eq_true_2 by done.
  eexists. split; [reflexivity|]. simpl. repeat split; reflexivity.
Qed.

Lemma body_second_dispersal time mfe tp ca s0 s1 d0 disk cs :
  let truncation_radius :=
    ca * tp * Rpower (Star.mass s1 / Star.mass s0) mfe in
  truncation_radius < Disk.disk_radius disk →
  truncation_radius <= 0.1 →
  ∃ s1',
    resolve_encounter_body time mfe tp ca
      (mkState [s0; s1] [d0; Some disk] cs) 1
    = Some (mkState [s0; s1']
              [d0; Some (truncate (Disk.set_dispersed true disk) truncation_radius)]
              (cs ++ [mkCall 1 (Disk.set_dispersed true disk) truncation_radius]))
    ∧ Star.collisional_radius s1' = 0.49 * ca
    ∧ Star.dispersal_time s1' = time
    ∧ Star.truncation_mass_loss s1' = 0
    ∧ Star.disk_mass s1'
      = Disk.disk_mass (truncate (Disk.set_dispersed true disk) truncation_radius).
Proof.
  intros tr Hlt Hle. unfold resolve_encounter_body. simpl. fold tr.
  rewrite !bool_decide_eq_true_2 by done.
  eexists. split; [reflexivity|]. simpl. repeat split; reflexivity.
Qed.

Lemma body_first_no_disk time mfe tp ca s0 s1 d1 cs :
  resolve_encounter_body time mfe tp ca (mkState [s0; s1] [None; d1] cs) 0
  = Some (mkState [Star.set_collisional_radius (0.49 * ca) s0; s1] [None; d1] cs).
Proof. reflexivity. Qed.

Lemma body_second_no_disk time mfe tp ca s0 s1 d0 cs :
  resolve_encounter_body time mfe tp ca (mkState [s0; s1] [d0; None] cs) 1
  = Some (mkState [s0; Star.set_collisional_radius (0.49 * ca) s1] [d0; None] cs).
Proof. reflexivity. Qed.

(** C5, as the code has it: [resolve_encounter] has no test for a
    degenerate pair.  For two stars at rest with respect to each other
    (apart from each other and each of positive mass, so that the code
    divides by no zero) the periastron distance it computes is 0;
    it then sets both collisional radii to 0 and, for each star with a
    disk of positive radius, marks the disk dispersed and calls
    [truncate] with radius 0. *)
Theorem resolve_encounter_at_rest_truncates
    (s0 s1 : Star.t) (d0 d1 : option Disk.t) (time mfe tp : R) :
  Star.velocity s0 = Star.velocity s1 →
  0 < Vec3.length (Vec3.sub (Star.position s0) (Star.position s1)) →
  0 < G * (Star.mass s0 + Star.mass s1) →
  0 < Star.mass s0 → 0 < Star.mass s1 →
  (∀ d, d0 = Some d → 0 < Disk.disk_radius d) →
  (∀ d, d1 = Some d → 0 < Disk.disk_radius d) →
  ∃ st s0' s1',
    periastron_distance [s0; s1] = Some 0
    ∧ resolve_encounter [s0; s1] [d0; d1] time mfe tp = Some st
    ∧ stars st = [s0'; s1']
    ∧ Star.collisional_radius s0' = 0
    ∧ Star.collisional_radius s1' = 0
    ∧ calls st
      = match d0 with
        | Some d => [mkCall 0 (Disk.set_dispersed true d) 0]
        | None => []
        end
        ++ match d1 with
           | Some d => [mkCall 1 (Disk.set_dispersed true d) 0]
           | None => []
           end.
Proof.
  intros Hv _ _ _ _ Hd0 Hd1.
  pose proof (periastron_distance_at_rest s0 s1 Hv) as Hca.
  unfold resolve_encounter. rewrite Hca. cbn [mbind option_bind].
  change (Py.range 2) with [0%Z; 1%Z]. cbn [Py.for_each].
  assert (Hzero : ∀ x, 0 * tp * x = 0) by (intros; ring).
  assert (Hcr : 0.49 * 0 = 0) by ring.
  destruct d0 as [disk0|].
  - destruct (body_first_dispersal time mfe tp 0 s0 s1 disk0 d1 [])
      as (s0' & -> & Hc0 & Hm0 & _).
    { rewrite Hzero. by apply Hd0. }
    { rewrite Hzero. lra. }
    cbn [mbind option_bind]. rewrite Hzero.
    destruct d1 as [disk1|].
    + destruct (body_second_dispersal time mfe tp 0 s0' s1 (Some (truncate (Disk.set_dispersed true disk0) 0)) disk1 ([] ++ [mkCall 0 (Disk.set_dispersed true disk0) 0]))
        as (s1' & -> & Hc1 & _).
      { rewrite Hzero. by apply Hd1. }
      { rewrite Hzero. lra. }
      cbn [mbind option_bind]. rewrite Hzero.
      eexists _, s0', s1'. repeat split; first [reflexivity | simpl; lra].
    + rewrite body_second_no_disk. cbn [mbind option_bind].
      eexists _, s0', _. repeat split; first [reflexivity | simpl; lra].
  - rewrite body_first_no_disk. cbn [mbind option_bind].
    destruct d1 as [disk1|].
    + destruct (body_second_dispersal time mfe tp 0 (Star.set_collisional_radius (0.49 * 0) s0) s1 None disk1 [])
        as (s1' & -> & Hc1 & _).
      { rewrite Hzero. by apply Hd1. }
      { rewrite Hzero. lra. }
      cbn [mbind option_bind]. rewrite Hzero.
      eexists _, _, s1'. repeat split; first [reflexivity | simpl; lra].
    + rewrite body_second_no_disk. cbn [mbind option_bind].
      eexists _, _, _. repeat split; first [reflexivity | simpl; lra].
Qed.

End facts.
End EncounterFacts.

Module EncounterExamples.
Import Encounter EncounterFacts Scenarios.
Local Open Scope R_scope.

#[local] Existing Instance units.
#[local] Existing Instance collaborators.

Lemma wide_pair_periastron :
  periastron_distance [wide_first; wide_second] = Some 50.
Proof.
  apply periastron_distance_flyby; [lra| | |].
  - unfold Vec3.sub. simpl. f_equal; lra.
  - unfold Vec3.sub. simpl. f_equal; lra.
  - simpl. lra.
Qed.

Lemma close_pair_periastron :
  periastron_distance [close_first; close_second] = Some 0.15.
Proof.
  apply periastron_distance_flyby; [lra| | |].
  - unfold Vec3.sub. simpl. f_equal; lra.
  - unfold Vec3.sub. simpl. f_equal; lra.
  - simpl. lra.
Qed.

Lemma Rpower_one (y : R) : Rpower 1 y = 1.
Proof. unfold Rpower. by rewrite ln_1, Rmult_0_r, exp_0. Qed.

(** C3 fails: a star that comes out of an earlier encounter with a
    collisional radius of 1 au and then passes another star at 50 au
    leaves [resolve_encounter] with a collisional radius of 24.5 au. *)
Lemma collisional_radius_can_increase :
  ∃ st s0',
    resolve_encounter_default [wide_first; wide_second] [None; None] 0 = Some st
    ∧ stars st !! 0%nat = Some s0'
    ∧ Star.collisional_radius wide_first = 1
    ∧ Star.collisional_radius s0' = 24.5
    ∧ ¬ (Star.collisional_radius s0' <= Star.collisional_radius wide_first).
Proof.
  unfold resolve_encounter_default, resolve_encounter.
  rewrite wide_pair_periastron. cbn [mbind option_bind].
  change (Py.range 2) with [0%Z; 1%Z]. cbn [Py.for_each].
  rewrite body_first_no_disk. cbn [mbind option_bind].
  rewrite body_second_no_disk. cbn [mbind option_bind].
  eexists _, _. split; [reflexivity|]. split; [reflexivity|].
  simpl. repeat split; lra.
Qed.

(** C5 fails: for two stars with disks that are at rest with respect to
    each other, [resolve_encounter] skips nothing: it calls [truncate]
    on both disks, with radius 0 and after marking them dispersed, and
    it sets both collisional radii to 0. *)
Lemma pair_at_rest_is_truncated :
  Star.velocity rest_first = Star.velocity rest_second
  ∧ ∃ st,
      resolve_encounter_default [rest_first; rest_second]
        [Some rest_first_disk; Some rest_second_disk] 0 = Some st
      ∧ calls st = [mkCall 0 (Disk.set_dispersed true rest_first_disk) 0;
                    mkCall 1 (Disk.set_dispersed true rest_second_disk) 0]
      ∧ Star.collisional_radius <$> stars st = [0; 0].
Proof.
  split; [reflexivity|].
  unfold resolve_encounter_default, resolve_encounter.
  rewrite (periastron_distance_at_rest rest_first rest_second eq_refl).
  cbn [mbind option_bind].
  change (Py.range 2) with [0%Z; 1%Z]. cbn [Py.for_each].
  assert (Hzero : ∀ x, 0 * (1 / 3) * x = 0) by (intros; ring).
  destruct (body_first_dispersal 0 0.2 (1 / 3) 0 rest_first rest_second
              rest_first_disk (Some rest_second_disk) [])
    as (s0' & -> & Hc0 & _).
  { rewrite Hzero. simpl. lra. }
  { rewrite Hzero. lra. }
  cbn [mbind option_bind]. rewrite Hzero.
  destruct (body_second_dispersal 0 0.2 (1 / 3) 0 s0' rest_second
              (Some (truncate (Disk.set_dispersed true rest_first_disk) 0))
              rest_second_disk
              ([] ++ [mkCall 0 (Disk.set_dispersed true rest_first_disk) 0]))
    as (s1' & -> & Hc1 & _).
  { rewrite Hzero. simpl. lra. }
  { rewrite Hzero. lra. }
  cbn [mbind option_bind]. rewrite Hzero.
  eexists. split; [reflexivity|]. split; [reflexivity|].
  simpl. rewrite Hc0, Hc1. f_equal; [lra|f_equal; lra].
Qed.

(** C2, the code at a failing input: the truncation radius of the first
    disk is 0.05 au, below its radius of 8 au and below the floor of 0.1
    au.  [resolve_encounter] marks the disk dispersed and records the
    encounter time as the dispersal time, and then calls [truncate] on
    that disk with radius 0.05 au; the disk mass of the star is what
    [truncate] returns, not zero, and the mass loss it records is 0. *)
Theorem dispersed_disk_is_truncated :
  ∃ st s0',
    resolve_encounter_default [close_first; close_second]
      [Some close_first_disk; None] 1000 = Some st
    ∧ calls st = [mkCall 0 (Disk.set_dispersed true close_first_disk) 0.05]
    ∧ stars st !! 0%nat = Some s0'
    ∧ Star.dispersal_time s0' = 1000
    ∧ Star.disk_mass close_first = 0.005
    ∧ Star.truncation_mass_loss s0' = 0
    ∧ Star.disk_mass s0'
      = Disk.disk_mass (truncate (Disk.set_dispersed true close_first_disk) 0.05)
    ∧ Star.disk_mass s0' ≠ 0.
Proof.
  unfold resolve_encounter_default, resolve_encounter.
  rewrite close_pair_periastron. cbn [mbind option_bind].
  change (Py.range 2) with [0%Z; 1%Z]. cbn [Py.for_each].
  assert (Htr : 0.15 * (1 / 3)
                * Rpower (Star.mass close_first / Star.mass close_second) 0.2
                = 0.05).
  { replace (Star.mass close_first / Star.mass close_second) with 1
      by (simpl; field; lra).
    rewrite Rpower_one. lra. }
  destruct (body_first_dispersal 1000 0.2 (1 / 3) 0.15 close_first close_second
              close_first_disk None [])
    as (s0' & -> & _ & _ & Ht & Hloss & _ & _ & Hmass).
  { rewrite Htr. simpl. lra. }
  { rewrite Htr. lra. }
  cbn [mbind option_bind]. rewrite Htr in *.
  rewrite body_second_no_disk. cbn [mbind option_bind].
  eexists _, s0'. split; [reflexivity|]. split; [reflexivity|].
  split; [reflexivity|]. split; [done|]. split; [simpl; lra|].
  split; [done|]. split; [done|].
  rewrite Hmass. simpl. lra.
Qed.

End EncounterExamples.

Module PhotoevaporationFacts.
Import Particles Photoevaporation.
Local Open Scope R_scope.

(** *** Subsets selected by key *)

Lemma with_key_absent (i : Z) (ss : list Star.t) :
  i ∉ Star.key <$> ss → with_key i ss = [].
Proof.
  unfold with_key. induction ss as [|a ss IH]; intros Hin; [done|].
  rewrite fmap_cons in Hin. apply not_elem_of_cons in Hin as [Hne Hin].
  rewrite filter_cons. destruct (decide (Star.key a = i)); [congruence|].
  by apply IH.
Qed.

Lemma with_key_unique (i : Z) (ss : list Star.t) :
  NoDup (Star.key <$> ss) → i ∈ Star.key <$> ss →
  ∃ s, with_key i ss = [s] ∧ s ∈ ss ∧ Star.key s = i.
Proof.
  unfold with_key. induction ss as [|a ss IH]; intros Hnd Hin.
  - by apply elem_of_nil in Hin.
  - rewrite fmap_cons in Hnd, Hin. apply NoDup_cons in Hnd as [Hna Hnd].
    rewrite filter_cons. destruct (decide (Star.key a = i)) as [Ha|Ha].
    + exists a. split; [|split; [left|done]].
      f_equal. apply with_key_absent. by rewrite <- Ha.
    + apply elem_of_cons in Hin as [Hin|Hin]; [congruence|].
      destruct (IH Hnd Hin) as (s & Hf & Hs & Hk).
      exists s. split; [done|]. split; [by right|done].
Qed.

Lemma assign_key_keys (i : Z) (f : Star.t → Star.t) (ss : list Star.t) :
  (∀ s, Star.key (f s) = Star.key s) →
  Star.key <$> assign_key i f ss = Star.key <$> ss.
Proof.
  intros Hf. unfold assign_key. rewrite <- list_fmap_compose.
  apply list_fmap_ext. intros _ s _. simpl. by case_decide.
Qed.

Section facts.
Context {U : Units} {C : Collaborators}.

(** *** The mass-loss evaluator on one star *)

(** What [single_photoevaporation_mass_loss(i)] returns and does when
    [i] is the key of one star, which has a disk. *)
Lemma single_photoevaporation_mass_loss_eq (i : Z) (g : Globals)
    (s : Star.t) (j : nat) (d : Disk.t) :
  with_key i (stars g) = [s] →
  disk_indices g !! i = Some j →
  disks g !! j = Some d →
  single_photoevaporation_mass_loss i g
  = Some (interp_amuse (Star.stellar_mass s) (Star.total_radiation s)
            (Disk.disk_gas_mass d) (Disk.disk_radius d)
          + photoevap_Mdot_EUV (Star.EUV s) (Star.disk_radius s * au_cm),
          assign_EUV i false g).
Proof.
  intros Hs Hj Hd. unfold single_photoevaporation_mass_loss.
  unfold bind, get_globals, lift, modify, ret.
  rewrite Hs, Hj, Hd. reflexivity.
Qed.

(** C4, as the code has it: for a star with a disk,
    [single_photoevaporation_mass_loss] returns the interpolated FUV
    rate plus a term that is [2e-9 * 3 * 4.12 * (disk_radius / 1e14 cm)]
    when the EUV flag of the star is set, and exactly zero when it is
    not.  The term is linear in the disk radius: a disk [c] times as
    large gets [c] times the term. *)
Theorem mass_loss_adds_linear_EUV_term (i : Z) (g : Globals)
    (s : Star.t) (j : nat) (d : Disk.t) :
  with_key i (stars g) = [s] →
  disk_indices g !! i = Some j →
  disks g !! j = Some d →
  let FUV := interp_amuse (Star.stellar_mass s) (Star.total_radiation s)
               (Disk.disk_gas_mass d) (Disk.disk_radius d) in
  ∃ rate g',
    single_photoevaporation_mass_loss i g = Some (rate, g')
    ∧ (Star.EUV s = true →
       rate = FUV + 2 * 1e-9 * 3 * 4.12 * (Star.disk_radius s * au_cm / 1e14))
    ∧ (Star.EUV s = false → rate = FUV + 0)
    ∧ (∀ c r, photoevap_Mdot_EUV true (c * r) = c * photoevap_Mdot_EUV true r).
Proof.
  intros Hs Hj Hd FUV. eexists _, _.
  split; [by apply (single_photoevaporation_mass_loss_eq i g s j d)|].
  split; [intros ->; reflexivity|].
  split; [intros ->; reflexivity|].
  intros c r. unfold photoevap_Mdot_EUV. field.
Qed.

End facts.

Lemma Rpower_4_three_halves : Rpower 4 (3 / 2) = 8.
Proof.
  replace (3 / 2) with (1 + / 2) by lra.
  rewrite Rpower_plus, Rpower_1, Rpower_sqrt by lra.
  replace 4 with (2 * 2) at 2 by lra. rewrite sqrt_square by lra. lra.
Qed.

(** C4 fails: the EUV term is not a constant times the disk radius to
    the power 3/2.  A disk of 4 cm gets 4 times the term of a disk of
    1 cm; with an exponent of 3/2 it would get 8 times that. *)
Lemma EUV_term_is_not_a_three_halves_power :
  ¬ ∃ coefficient : R,
      ∀ disk_radius_cm : R,
        0 < disk_radius_cm →
        photoevap_Mdot_EUV true disk_radius_cm
        = coefficient * Rpower disk_radius_cm (3 / 2).
Proof.
  intros [k Hk].
  pose proof (Hk 1 ltac:(lra)) as H1.
  pose proof (Hk 4 ltac:(lra)) as H4.
  rewrite Rpower_4_three_halves in H4.
  unfold Rpower in H1. rewrite ln_1, Rmult_0_r, exp_0 in H1.
  unfold photoevap_Mdot_EUV in H1, H4. lra.
Qed.

End PhotoevaporationFacts.

Module EUVFlagFacts.
Import Particles Photoevaporation PhotoevaporationFacts.
Local Open Scope R_scope.

(** *** Assigning the flag *)

Lemma assign_EUV_keys i v g :
  Star.key <$> stars (assign_EUV i v g) = Star.key <$> stars g.
Proof. unfold assign_EUV. simpl. by apply assign_key_keys. Qed.

Lemma assign_EUV_disks i v g : disks (assign_EUV i v g) = disks g.
Proof. reflexivity. Qed.

Lemma assign_EUV_disk_indices i v g :
  disk_indices (assign_EUV i v g) = disk_indices g.
Proof. reflexivity. Qed.

Lemma assign_EUV_idemp i v g :
  assign_EUV i v (assign_EUV i v g) = assign_EUV i v g.
Proof.
  unfold assign_EUV, set_stars. simpl. f_equal.
  unfold assign_key. rewrite <- list_fmap_compose.
  apply list_fmap_ext. intros _ s _. simpl.
  destruct (decide (Star.key s = i)) as [Hk|Hk].
  - rewrite decide_True by done. reflexivity.
  - by rewrite decide_False by done.
Qed.

Lemma elem_of_assign_EUV i v g s' :
  s' ∈ stars (assign_EUV i v g) →
  ∃ s, s ∈ stars g ∧ Star.key s' = Star.key s
       ∧ Star.EUV s' = if decide (Star.key s = i) then v else Star.EUV s.
Proof.
  unfold assign_EUV, assign_key. simpl. intros Hin.
  apply list_elem_of_fmap in Hin as (s & -> & Hs).
  exists s. split; [done|]. by case_decide.
Qed.

Lemma well_formed_assign_EUV indices i v g :
  well_formed indices g → well_formed indices (assign_EUV i v g).
Proof.
  intros [Hnd Hidx]. split.
  - by rewrite assign_EUV_keys.
  - intros k Hk. rewrite assign_EUV_keys. by apply Hidx.
Qed.

Lemma well_formed_tail i indices g :
  well_formed (i :: indices) g → well_formed indices g.
Proof. intros [Hnd Hidx]. split; [done|]. intros k Hk. apply Hidx. by right. Qed.

Section facts.
Context {U : Units} {C : Collaborators}.

(** *** The radiation evaluator on one star *)

Lemma single_total_radiation_body_effect i acc s g :
  NoDup (Star.key <$> stars g) → i ∈ Star.key <$> stars g →
  ∃ r (b : bool),
    single_total_radiation_body i acc s g
    = Some (r, if b then assign_EUV i true g else g).
Proof.
  intros Hnd Hin.
  destruct (with_key_unique i (stars g) Hnd Hin) as (t & Ht & _ & _).
  unfold single_total_radiation_body, bind, get_globals, lift.
  rewrite Ht. cbn [fmap list_fmap head truth].
  case_bool_decide; unfold modify, ret.
  - eexists _, true. reflexivity.
  - eexists _, false. reflexivity.
Qed.

Lemma single_total_radiation_fold_effect i bs acc g :
  NoDup (Star.key <$> stars g) → i ∈ Star.key <$> stars g →
  ∃ r (b : bool),
    fold_M (single_total_radiation_body i) bs acc g
    = Some (r, if b then assign_EUV i true g else g).
Proof.
  revert acc g. induction bs as [|s bs IH]; intros acc g Hnd Hin.
  - exists acc, false. reflexivity.
  - cbn [fold_M]. unfold bind at 1.
    destruct (single_total_radiation_body_effect i acc s g Hnd Hin)
      as (r & b & ->).
    destruct b.
    + destruct (IH r (assign_EUV i true g)) as (r' & b' & ->).
      { by rewrite assign_EUV_keys. }
      { by rewrite assign_EUV_keys. }
      exists r', true. destruct b'; [by rewrite assign_EUV_idemp|done].
    + destruct (IH r g Hnd Hin) as (r' & b' & ->). by exists r', b'.
Qed.

(** [single_total_radiation(i)] returns for a star of the set, and all
    it does to the globals is to set the flag of that star, or
    nothing. *)
Lemma single_total_radiation_effect i g :
  NoDup (Star.key <$> stars g) → i ∈ Star.key <$> stars g →
  ∃ r (b : bool),
    single_total_radiation i g
    = Some (r, if b then assign_EUV i true g else g).
Proof.
  intros Hnd Hin. unfold single_total_radiation, bind, get_globals.
  case_bool_decide.
  - exists 0, false. reflexivity.
  - by apply single_total_radiation_fold_effect.
Qed.

Lemma single_photoevaporation_mass_loss_effect i indices g :
  well_formed indices g → i ∈ indices →
  ∃ r, single_photoevaporation_mass_loss i g = Some (r, assign_EUV i false g).
Proof.
  intros [Hnd Hidx] Hi. destruct (Hidx i Hi) as (Hin & j & d & Hj & Hd).
  destruct (with_key_unique i (stars g) Hnd Hin) as (s & Hs & _ & _).
  eexists. by apply (single_photoevaporation_mass_loss_eq i g s j d).
Qed.

(** *** The stages *)

(** A stage returns what its evaluations return, and the globals of the
    caller are as they were. *)
Lemma pool_map_eq nc f indices g rs g' :
  (1 ≤ nc)%Z →
  map_M f indices g = Some (rs, g') →
  pool_map nc f indices g = Some (rs, g).
Proof.
  intros Hnc Hrun. unfold pool_map.
  destruct (Z.ltb_spec nc 1); [lia|]. by rewrite Hrun.
Qed.


End facts.
End EUVFlagFacts.

Module BookkeepingFacts.
Import Bookkeeping.
Local Open Scope R_scope.

(** *** The initial flags *)

Lemma init_flags_fmap (ss : list Star.t) :
  init_flags ss
  = (λ s, if bool_decide (Star.stellar_mass s > 1.9)
          then Star.set_disked false (Star.set_bright true s)
          else Star.set_disked true (Star.set_bright false s)) <$> ss.
Proof.
  unfold init_flags, assign_where. rewrite <- !list_fmap_compose.
  apply list_fmap_ext. intros _ s _. simpl.
  destruct (Rgt_dec (Star.stellar_mass s) 1.9) as [Hgt|Hle].
  - repeat first
      [ rewrite (bool_decide_eq_true_2 (Star.stellar_mass s > 1.9)) by done
      | rewrite (bool_decide_eq_false_2 (Star.stellar_mass s <= 1.9)) by lra
      | progress simpl ].
    reflexivity.
  - repeat first
      [ rewrite (bool_decide_eq_false_2 (Star.stellar_mass s > 1.9)) by done
      | rewrite (bool_decide_eq_true_2 (Star.stellar_mass s <= 1.9)) by lra
      | progress simpl ].
    reflexivity.
Qed.

Lemma init_flags_spec (ss : list Star.t) :
  Forall2 (λ s s', Star.key s' = Star.key s
                   ∧ Star.bright s' = bool_decide (Star.stellar_mass s > 1.9)
                   ∧ Star.disked s' = negb (Star.bright s'))
    ss (init_flags ss).
Proof.
  rewrite init_flags_fmap. apply Forall2_fmap_r, Forall_Forall2_diag, Forall_forall.
  intros s _. unfold compose. case_bool_decide; simpl; auto.
Qed.

(** *** One synchronisation *)

Lemma update_star_spec disks idx s d :
  disk_of disks idx (Star.key s) = Some d →
  ∃ s', update_star disks idx s = Some s'
        ∧ Star.key s' = Star.key s
        ∧ Star.bright s' = Star.bright s
        ∧ Star.disked s' = negb (Disk.dispersed d).
Proof.
  intros Hd. unfold update_star. rewrite Hd. simpl. eauto.
Qed.

Lemma update_stars_spec idx disks (ss : list Star.t) :
  (∀ s, s ∈ ss → Star.bright s = false →
        is_Some (disk_of disks idx (Star.key s))) →
  (∀ s, s ∈ ss → Star.disked s = true → Star.bright s = false) →
  ∃ ss', update_stars idx ss disks = Some ss'
         ∧ Forall2 (λ s s', Star.key s' = Star.key s
                            ∧ Star.bright s' = Star.bright s
                            ∧ Star.disked s'
                              = Star.disked s
                                && not_dispersed_in idx (Star.key s) disks)
             ss ss'.
Proof.
  intros Hdisk Hone. unfold update_stars.
  induction ss as [|s ss IH].
  - exists []. split; [done|constructor].
  - destruct IH as (ss' & Hrun & Hall).
    { intros t Ht. apply Hdisk. by right. }
    { intros t Ht. apply Hone. by right. }
    cbn [mapM]. rewrite Hrun.
    destruct (Star.disked s) eqn:Hdisked.
    + destruct (Hdisk s ltac:(left) (Hone s ltac:(left) Hdisked)) as [d Hd].
      destruct (update_star_spec disks idx s d Hd) as (s' & -> & Hk & Hb & Hf).
      simpl. exists (s' :: ss'). split; [done|]. constructor; [|done].
      unfold not_dispersed_in. rewrite Hd. by rewrite Hdisked.
    + simpl. exists (s :: ss'). split; [done|]. constructor; [|done].
      by rewrite Hdisked.
Qed.

(** *** Any number of steps *)

Lemma forallb_true_forall {A} (f : A → bool) (l : list A) :
  forallb f l = true ↔ ∀ x, x ∈ l → f x = true.
Proof.
  induction l as [|a l IH]; simpl.
  - split; [intros _ x Hx; by apply elem_of_nil in Hx|done].
  - rewrite andb_true_iff, IH. split.
    + intros [Ha Hl] x [->|Hx]%elem_of_cons; auto.
    + intros Hall. split; [apply Hall; by left|].
      intros x Hx. apply Hall. by right.
Qed.

Lemma forallb_false_exists {A} (f : A → bool) (l : list A) :
  forallb f l = false ↔ ∃ x, x ∈ l ∧ f x = false.
Proof.
  induction l as [|a l IH]; simpl.
  - split; [done|]. intros (x & Hx & _). by apply elem_of_nil in Hx.
  - rewrite andb_false_iff, IH. split.
    + intros [Ha|(x & Hx & Hf)].
      * exists a. split; [by left|done].
      * exists x. split; [by right|done].
    + intros (x & [->|Hx]%elem_of_cons & Hf); [by left|].
      right. by exists x.
Qed.

Lemma steps_spec idx steps (cur : list Star.t) :
  (∀ disks s, disks ∈ steps → s ∈ cur → Star.bright s = false →
              is_Some (disk_of disks idx (Star.key s))) →
  (∀ s, s ∈ cur → Star.disked s = true → Star.bright s = false) →
  ∃ fin, Py.for_each (update_stars idx) steps cur = Some fin
         ∧ Forall2 (λ c f, Star.key f = Star.key c
                           ∧ Star.bright f = Star.bright c
                           ∧ Star.disked f
                             = Star.disked c
                               && forallb (not_dispersed_in idx (Star.key c)) steps)
             cur fin.
Proof.
  revert cur. induction steps as [|disks steps IH]; intros cur Hdisk Hone.
  - exists cur. split; [done|]. apply Forall_Forall2_diag, Forall_forall.
    intros s _. simpl. by rewrite andb_true_r.
  - destruct (update_stars_spec idx disks cur) as (nxt & Hrun & Hstep).
    { intros s Hs. apply Hdisk; [by left|done]. }
    { done. }
    cbn [Py.for_each]. rewrite Hrun. cbn [mbind option_bind].
    assert (Hback : ∀ t, t ∈ nxt →
              ∃ s, s ∈ cur ∧ Star.key t = Star.key s
                   ∧ Star.bright t = Star.bright s
                   ∧ (Star.disked t = true → Star.disked s = true)).
    { intros t Ht. apply list_elem_of_lookup in Ht as [k Hk].
      destruct (Forall2_lookup_r _ _ _ _ _ Hstep Hk) as (s & Hs & Hkey & Hb & Hd).
      exists s. split; [by eapply list_elem_of_lookup_2|].
      split; [done|]. split; [done|].
      rewrite Hd. by intros [? _]%andb_true_iff. }
    destruct (IH nxt) as (fin & Hfin & Hrest).
    { intros ds t Hds Ht Hb. destruct (Hback t Ht) as (s & Hs & Hkey & Hbs & _).
      rewrite Hkey. apply Hdisk; [by right|done|congruence]. }
    { intros t Ht Hd. destruct (Hback t Ht) as (s & Hs & _ & Hbs & Hds).
      rewrite Hbs. apply Hone; [done|by apply Hds]. }
    exists fin. split; [done|].
    eapply Forall2_trans; [|exact Hstep|exact Hrest].
    intros c n f (Hk1 & Hb1 & Hd1) (Hk2 & Hb2 & Hd2).
    split; [congruence|]. split; [congruence|].
    rewrite Hd2, Hd1, Hk1. cbn [forallb]. by rewrite andb_assoc.
Qed.

(** C7, as the code has it: at every step boundary no star is both
    bright and disked.  A star is bright exactly when its stellar mass
    exceeds 1.9 MSun, and disked exactly when it does not and its disk
    has not been found dispersed at the end of any step so far; so
    exactly one of the flags holds as long as the disk lives, and neither
    holds once the disk of a star has dispersed.  The loop returns when
    every star of at most 1.9 MSun has its disk in [disks] at each
    step. *)
Theorem bright_and_disked_over_steps (idx : gmap Z nat) (ss : list Star.t)
    (steps : list (list Disk.t)) :
  (∀ disks s, disks ∈ steps → s ∈ ss → Star.stellar_mass s <= 1.9 →
              is_Some (disk_of disks idx (Star.key s))) →
  ∃ fin,
    flags_after_steps idx ss steps = Some fin
    ∧ Forall2
        (λ s f,
           Star.key f = Star.key s
           ∧ ¬ (Star.bright f = true ∧ Star.disked f = true)
           ∧ (Star.bright f = true ↔ Star.stellar_mass s > 1.9)
           ∧ (Star.disked f = true
              ↔ Star.stellar_mass s <= 1.9
                ∧ ∀ disks, disks ∈ steps →
                           not_dispersed_in idx (Star.key s) disks = true)
           ∧ (Star.bright f = false ∧ Star.disked f = false
              ↔ Star.stellar_mass s <= 1.9
                ∧ ∃ disks, disks ∈ steps
                           ∧ not_dispersed_in idx (Star.key s) disks = false))
        ss fin.
Proof.
  intros Hdisk. unfold flags_after_steps.
  pose proof (init_flags_spec ss) as Hinit.
  assert (Hback : ∀ t, t ∈ init_flags ss →
            ∃ s, s ∈ ss ∧ Star.key t = Star.key s
                 ∧ Star.bright t = bool_decide (Star.stellar_mass s > 1.9)
                 ∧ Star.disked t = negb (Star.bright t)).
  { intros t Ht. apply list_elem_of_lookup in Ht as [k Hk].
    destruct (Forall2_lookup_r _ _ _ _ _ Hinit Hk) as (s & Hs & Hkey & Hb & Hd).
    exists s. split; [by eapply list_elem_of_lookup_2|done]. }
  destruct (steps_spec idx steps (init_flags ss)) as (fin & Hrun & Hall).
  { intros disks t Hds Ht Hb. destruct (Hback t Ht) as (s & Hs & Hkey & Hbs & _).
    rewrite Hkey. apply Hdisk; [done|done|].
    rewrite Hbs in Hb. apply bool_decide_eq_false in Hb. lra. }
  { intros t Ht Hd. destruct (Hback t Ht) as (s & _ & _ & _ & Hdt).
    rewrite Hdt in Hd. by destruct (Star.bright t). }
  exists fin. split; [done|].
  eapply Forall2_trans; [|exact Hinit|exact Hall].
  intros s t f (Hk1 & Hb1 & Hd1) (Hk2 & Hb2 & Hd2). cbv beta.
  rewrite Hd2, Hb2, Hd1, Hb1, Hk1.
  pose proof (forallb_true_forall (not_dispersed_in idx (Star.key s)) steps)
    as Hforall.
  pose proof (forallb_false_exists (not_dispersed_in idx (Star.key s)) steps)
    as Hexists.
  destruct (forallb (not_dispersed_in idx (Star.key s)) steps);
    destruct (bool_decide_reflect (Star.stellar_mass s > 1.9)) as [Hgt|Hle];
    cbn [negb andb];
    repeat split; try done; try lra; try tauto;
    try (intros [? ?]; done); try (intros [? ?]; lra).
  all: try (intros _; split; [lra|tauto]).
  all: try (intros [_ Hall']; apply Hforall in Hall'; done).
  all: congruence.
Qed.

(** C7 fails: a star of 0.5 MSun whose disk has dispersed by the end of
    a step comes out of that step with both flags false. *)
Lemma dispersed_star_has_neither_flag :
  ∃ f,
    flags_after_steps Scenarios.small_star_index [Scenarios.small_star]
      [[Scenarios.small_star_disk_dispersed]] = Some [f]
    ∧ Star.bright f = false
    ∧ Star.disked f = false
    ∧ ¬ (Star.bright f = true ∨ Star.disked f = true).
Proof.
  unfold flags_after_steps. rewrite init_flags_fmap.
  cbn [fmap list_fmap].
  rewrite bool_decide_eq_false_2 by (simpl; lra).
  cbn [Py.for_each]. unfold update_stars. cbn [mapM].
  cbn [Star.disked Star.set_disked]. unfold update_star, disk_of.
  cbn [Star.key Star.set_disked Star.set_bright Scenarios.small_star Scenarios.star].
  unfold Scenarios.small_star_index. rewrite lookup_singleton_eq.
  simpl. eexists. split; [reflexivity|]. simpl.
  split; [done|]. split; [done|]. intros [?|?]; done.
Qed.

End BookkeepingFacts.

Module DispatchFacts.
Import Partition PartitionFacts Dispatch.
Local Open Scope R_scope.

(** Two integrators set up for stars of 1 and 0.5 MSun differ in their
    temperature normalisation. *)
Example setup_codes_differ :
  setup_codes [1; 0.5] 10
  = Some [mkCode 0 (100 * Rpower 1 (1 / 4));
          mkCode 1 (100 * Rpower 0.5 (1 / 4))].
Proof. reflexivity. Qed.

Section facts.
Context {C : Collaborators}.

(** [run_disks] with at least one integrator does not raise: every
    [disks_pooled[i]] and [viscous_codes[i]] it reads exists, and
    partition [i] is evolved by integrator [i]. *)
Lemma run_disks_returns (viscous_codes : list Code) (disks : list Disk.t) (dt : R) :
  viscous_codes ≠ [] →
  ∃ disks_pooled,
    pool_disks disks (Z.of_nat (length viscous_codes)) = Some disks_pooled
    ∧ length disks_pooled = length viscous_codes
    ∧ concat disks_pooled = disks
    ∧ run_disks viscous_codes disks dt
      = Some (zip_with (λ ds code, remote_worker_code (mkPackage ds code dt))
                disks_pooled viscous_codes).
Proof.
  intros Hne.
  assert (HW : (1 ≤ Z.of_nat (length viscous_codes))%Z).
  { destruct viscous_codes; [done|]. simpl. lia. }
  destruct (pool_disks_total disks _ HW) as (Hpool & Hlen & Hcat).
  rewrite Nat2Z.id in Hlen, Hcat, Hpool.
  set (pools := parts disks (Z.of_nat (length viscous_codes))
                  (length viscous_codes)) in *.
  clearbody pools. exists pools. split; [done|]. split; [done|]. split; [done|].
  unfold run_disks. rewrite Hpool. cbn [mbind option_bind].
  assert (Hpk : mapM (λ i : Z, ds ← pools !! Z.to_nat i;
                               code ← viscous_codes !! Z.to_nat i;
                               Some (mkPackage ds code dt))
                  (Py.range (Z.of_nat (length viscous_codes)))
                = Some (zip_with (λ ds code, mkPackage ds code dt)
                          pools viscous_codes)).
  { apply mapM_Some. apply Forall2_same_length_lookup_2.
    - rewrite length_zip_with, Hlen, Nat.min_id.
      unfold Py.range. by rewrite length_seqZ, Nat2Z.id.
    - intros k i pkg Hi Hpkg. unfold Py.range in Hi.
      apply lookup_seqZ in Hi as [-> Hk].
      apply lookup_zip_with_Some in Hpkg as (ds & code & -> & Hds & Hcode).
      replace (Z.to_nat (0 + Z.of_nat k)) with k by lia.
      by rewrite Hds, Hcode. }
  rewrite Hpk. cbn [mbind option_bind]. f_equal.
  clear. revert viscous_codes.
  induction pools as [|ds pools IH]; intros [|code codes]; simpl; try done.
  by rewrite IH.
Qed.

(** If the evolution of a disk does not depend on the integrator it is
    bound to, then the number of integrators does not matter:
    whatever the integrators, the disks come out of [run_disks] as
    they come out of evolving each on its own.  Whether
    [evolve_disk_for] has that property is decided by code that is not
    in this file: the integrators differ in [Tm]. *)
Lemma run_disks_if_integrators_alike (viscous_codes : list Code)
    (disks : list Disk.t) (dt : R) (evolve : Disk.t → Disk.t) :
  viscous_codes ≠ [] →
  (∀ d code, evolve_disk_for (Disk.set_viscous (Some code) d) dt = evolve d) →
  ∃ pools, run_disks viscous_codes disks dt = Some pools
           ∧ concat pools = evolve <$> disks.
Proof.
  intros Hne Halike.
  destruct (run_disks_returns viscous_codes disks dt Hne)
    as (pools & _ & Hlen & Hcat & ->).
  eexists. split; [reflexivity|]. rewrite <- Hcat. clear Hcat.
  revert viscous_codes Hne Hlen.
  induction pools as [|ds pools IH]; intros [|code codes] Hne Hlen;
    simpl in *; try done.
  rewrite fmap_app. f_equal.
  - unfold remote_worker_code. simpl. apply list_fmap_ext.
    intros _ d _. apply Halike.
  - destruct codes as [|code' codes].
    + destruct pools; [done|simpl in Hlen; lia].
    + apply IH; [done|lia].
Qed.

End facts.
End DispatchFacts.

(** ** The theorems at concrete inputs *)

Module Witnesses.
Import Scenarios MoreScenarios.
Local Open Scope R_scope.

#[local] Existing Instance units.
#[local] Existing Instance collaborators.

(** Five disks over three workers. *)
Lemma pool_disks_balanced_contiguous_witness :
  (1 ≤ 3)%Z
  ∧ ∃ pools : list (list nat),
      Partition.pool_disks [10; 11; 12; 13; 14]%nat 3 = Some pools
      ∧ length pools = 3%nat
      ∧ concat pools = [10; 11; 12; 13; 14]%nat.
Proof.
  split; [lia|].
  destruct (PartitionFacts.pool_disks_balanced_contiguous
              [10; 11; 12; 13; 14]%nat 3 ltac:(lia))
    as (pools & Hrun & Hlen & Hcat & _).
  exists pools. auto.
Defined.

(** Two disks over four workers. *)
Lemma pool_disks_more_workers_than_disks_witness :
  (1 ≤ 4)%Z ∧ (Z.of_nat (length [10; 11]%nat) < 4)%Z
  ∧ ∃ pools : list (list nat),
      Partition.pool_disks [10; 11]%nat 4 = Some pools
      ∧ length pools = 4%nat
      ∧ pools !! 0%nat = Some [10%nat] ∧ pools !! 1%nat = Some [11%nat]
      ∧ pools !! 2%nat = Some [] ∧ pools !! 3%nat = Some [].
Proof.
  split; [lia|]. split; [simpl; lia|].
  destruct (PartitionFacts.pool_disks_more_workers_than_disks
              [10; 11]%nat 4 ltac:(lia))
    as (pools & Hrun & Hlen & _ & Hmore).
  destruct (Hmore ltac:(simpl; lia)) as [Hone Hempty].
  exists pools. split; [done|]. split; [done|].
  split; [by apply Hone|]. split; [by apply Hone|].
  split; apply Hempty; simpl; lia.
Defined.

(** The pair at rest. *)
Lemma resolve_encounter_at_rest_truncates_witness :
  Star.velocity rest_first = Star.velocity rest_second
  ∧ 0 < Star.mass rest_first ∧ 0 < Star.mass rest_second
  ∧ ∃ st,
      Encounter.resolve_encounter [rest_first; rest_second]
        [Some rest_first_disk; Some rest_second_disk] 0 0.2 (1 / 3) = Some st
      ∧ length (Encounter.calls st) = 2%nat.
Proof.
  assert (Hm0 : 0 < Star.mass rest_first) by (simpl; lra).
  assert (Hm1 : 0 < Star.mass rest_second) by (simpl; lra).
  split; [reflexivity|]. split; [exact Hm0|]. split; [exact Hm1|].
  destruct (EncounterFacts.resolve_encounter_at_rest_truncates
              rest_first rest_second (Some rest_first_disk)
              (Some rest_second_disk) 0 0.2 (1 / 3))
    as (st & s0' & s1' & _ & Hrun & _ & _ & _ & Hcalls).
  - reflexivity.
  - rewrite (EncounterFacts.length_of_squares _ 1); simpl; lra.
  - simpl. lra.
  - exact Hm0.
  - exact Hm1.
  - intros d Hd. injection Hd as <-. simpl. lra.
  - intros d Hd. injection Hd as <-. simpl. lra.
  - exists st. split; [done|]. by rewrite Hcalls.
Defined.

Lemma cluster_well_formed : Photoevaporation.well_formed [7%Z] cluster.
Proof.
  split.
  - simpl. apply NoDup_cons. split.
    { intros Hin%list_elem_of_singleton. discriminate. }
    apply NoDup_cons. split; [apply not_elem_of_nil|]. apply NoDup_nil_2.
  - intros i ->%list_elem_of_singleton. split.
    + simpl. right. left.
    + exists 0%nat, small_star_disk. split; [|done].
      apply lookup_singleton_eq.
Qed.

Lemma irradiated_cluster_small_star (radiation : R) (EUV : bool) :
  Particles.with_key 7 (stars (irradiated_cluster radiation EUV))
  = [irradiated_small_star radiation EUV].
Proof.
  unfold Particles.with_key. simpl.
  rewrite filter_cons_False by (simpl; lia).
  by rewrite filter_cons_True by done.
Qed.

(** The small star of the cluster, once with its EUV flag up and once
    with the flag down. *)
Lemma mass_loss_adds_linear_EUV_term_witness :
  Particles.with_key 7 (stars (irradiated_cluster 0 true))
  = [irradiated_small_star 0 true]
  ∧ Star.EUV (irradiated_small_star 0 true) = true
  ∧ (∃ rate g',
       Photoevaporation.single_photoevaporation_mass_loss 7
         (irradiated_cluster 0 true) = Some (rate, g')
       ∧ rate = 1e-8 + 2 * 1e-9 * 3 * 4.12 * (21 * au_cm / 1e14))
  ∧ Star.EUV (irradiated_small_star 0 false) = false
  ∧ ∃ rate g',
      Photoevaporation.single_photoevaporation_mass_loss 7
        (irradiated_cluster 0 false) = Some (rate, g')
      ∧ rate = 1e-8 + 0.
Proof.
  split; [exact (irradiated_cluster_small_star 0 true)|].
  split; [reflexivity|]. split; [|split; [reflexivity|]].
  - destruct (PhotoevaporationFacts.mass_loss_adds_linear_EUV_term
                7 (irradiated_cluster 0 true) (irradiated_small_star 0 true)
                0 small_star_disk (irradiated_cluster_small_star 0 true))
      as (rate & g' & Hrun & Hon & _).
    + apply lookup_singleton_eq.
    + reflexivity.
    + exists rate, g'. split; [done|]. by apply Hon.
  - destruct (PhotoevaporationFacts.mass_loss_adds_linear_EUV_term
                7 (irradiated_cluster 0 false) (irradiated_small_star 0 false)
                0 small_star_disk (irradiated_cluster_small_star 0 false))
      as (rate & g' & Hrun & _ & Hoff & _).
    + apply lookup_singleton_eq.
    + reflexivity.
    + exists rate, g'. split; [done|]. by apply Hoff.
Defined.

(** The small star, whose disk has dispersed by the end of the first
    step. *)
Lemma bright_and_disked_over_steps_witness :
  ∃ fin,
    Bookkeeping.flags_after_steps small_star_index [small_star]
      [[small_star_disk_dispersed]] = Some fin
    ∧ length fin = 1%nat.
Proof.
  destruct (BookkeepingFacts.bright_and_disked_over_steps small_star_index
              [small_star] [[small_star_disk_dispersed]])
    as (fin & Hrun & Hall).
  - intros disks s ->%list_elem_of_singleton ->%list_elem_of_singleton _.
    exists small_star_disk_dispersed. unfold Bookkeeping.disk_of. simpl.
    unfold small_star_index. by rewrite lookup_singleton_eq.
  - exists fin. split; [done|]. by apply Forall2_length in Hall.
Defined.

End Witnesses.

(* ===================================================================== *)
(** * Part III: further properties of the code                            *)
(* ===================================================================== *)

Module DispatchMore.
Import Partition PartitionFacts Dispatch DispatchFacts.
Local Open Scope R_scope.

(** X1: [pool_disks] with no worker raises ZeroDivisionError, whatever the
    disks; with a negative number of workers it does not raise and returns
    no partition at all, so that the disks are in none. *)
Theorem pool_disks_without_workers {Disk : Type} (disks : list Disk) (N_cores : Z) :
  (N_cores ≤ 0)%Z →
  pool_disks disks N_cores = if (N_cores =? 0)%Z then None else Some [].
Proof.
  intros Hn. unfold pool_disks.
  destruct (Z.eqb_spec N_cores 0); [done|].
  unfold Py.range. rewrite seqZ_nil by lia. reflexivity.
Qed.

Section facts.
Context {C : Collaborators}.

Lemma remote_worker_code_zip (ds : list Disk.t) (code : Code) (dt : R) :
  remote_worker_code (mkPackage ds code dt)
  = zip_with (λ d c, evolve_disk_for (Disk.set_viscous (Some c) d) dt)
      ds (replicate (length ds) code).
Proof.
  unfold remote_worker_code. simpl.
  by rewrite zip_with_replicate_r_eq by done.
Qed.

Lemma evolved_pools_concat (pools : list (list Disk.t)) (codes : list Code) (dt : R) :
  length pools = length codes →
  let assigned :=
    concat (zip_with (λ ds code, replicate (length ds) code) pools codes) in
  length assigned = length (concat pools)
  ∧ (∀ c, c ∈ assigned → c ∈ codes)
  ∧ concat (zip_with (λ ds code, remote_worker_code (mkPackage ds code dt))
              pools codes)
    = zip_with (λ d c, evolve_disk_for (Disk.set_viscous (Some c) d) dt)
        (concat pools) assigned.
Proof.
  revert codes. induction pools as [|ds pools IH]; intros [|code codes] Hlen;
    cbv zeta in *; simpl in *; try done.
  destruct (IH codes ltac:(lia)) as (Hl & Hin & Hcat).
  split; [|split].
  - rewrite !length_app, length_replicate. lia.
  - intros c [Hc|Hc]%elem_of_app.
    + apply elem_of_replicate in Hc as [-> _]. by left.
    + right. by apply Hin.
  - rewrite zip_with_app by (by rewrite length_replicate).
    by rewrite Hcat, remote_worker_code_zip.
Qed.

(** X2: with at least one integrator [run_disks] does not raise; it
    returns one list per integrator, and read in order the lists hold
    every disk of the input exactly once, in the order of the input, each
    evolved for [dt] after it was bound to one of the given integrators. *)
Theorem run_disks_evolves_every_disk_once (viscous_codes : list Code)
    (disks : list Disk.t) (dt : R) :
  viscous_codes ≠ [] →
  ∃ (pools : list (list Disk.t)) (assigned : list Code),
    run_disks viscous_codes disks dt = Some pools
    ∧ length pools = length viscous_codes
    ∧ length assigned = length disks
    ∧ (∀ c, c ∈ assigned → c ∈ viscous_codes)
    ∧ concat pools
      = zip_with (λ d c, evolve_disk_for (Disk.set_viscous (Some c) d) dt)
          disks assigned.
Proof.
  intros Hne.
  destruct (run_disks_returns viscous_codes disks dt Hne)
    as (pools & _ & Hlen & Hcat & Hrun).
  destruct (evolved_pools_concat pools viscous_codes dt Hlen)
    as (Hl & Hin & Hzip).
  rewrite Hcat in *.
  eexists _, _. split; [exact Hrun|].
  split; [by rewrite length_zip_with, Hlen, Nat.min_id|].
  split; [exact Hl|]. split; [exact Hin|exact Hzip].
Qed.

End facts.

(** The integrators: never more than there are stars, integrator [k]
    with the temperature normalisation of star [k]. *)
Lemma setup_codes_spec (stellar_masses : list R) (number_of_vaders : Z) :
  ∃ codes : list Code,
    setup_codes stellar_masses number_of_vaders = Some codes
    ∧ length codes
      = Z.to_nat (Z.min number_of_vaders (Z.of_nat (length stellar_masses)))
    ∧ (∀ (k : nat) code, codes !! k = Some code →
         ∃ m, stellar_masses !! k = Some m
              ∧ code = mkCode k (100 * Rpower m (1 / 4))).
Proof.
  unfold setup_codes.
  set (n := if (number_of_vaders <? Z.of_nat (length stellar_masses))%Z
            then number_of_vaders else Z.of_nat (length stellar_masses)).
  assert (Hn : n = Z.min number_of_vaders (Z.of_nat (length stellar_masses))).
  { subst n. destruct (Z.ltb_spec number_of_vaders (Z.of_nat (length stellar_masses))); lia. }
  set (expected := (λ k, mkCode k (100 * Rpower (default 0 (stellar_masses !! k)) (1 / 4)))
                     <$> seq 0 (Z.to_nat n)).
  assert (Hrun : mapM (λ i : Z, m ← stellar_masses !! Z.to_nat i;
                                Some (mkCode (Z.to_nat i) (100 * Rpower m (1 / 4))))
                   (Py.range n) = Some expected).
  { apply mapM_Some, Forall2_same_length_lookup_2.
    - subst expected. unfold Py.range.
      by rewrite length_fmap, length_seq, length_seqZ.
    - intros k i code Hi Hcode. unfold Py.range in Hi.
      apply lookup_seqZ in Hi as [-> Hk]. subst expected.
      rewrite list_lookup_fmap in Hcode.
      destruct (seq 0 (Z.to_nat n) !! k) as [k'|] eqn:Hseq; [|done].
      apply lookup_seq in Hseq as [-> _]. simpl in Hcode. injection Hcode as <-.
      replace (Z.to_nat (0 + Z.of_nat k)) with k by lia.
      destruct (lookup_lt_is_Some_2 stellar_masses k ltac:(lia)) as [m ->].
      reflexivity. }
  exists expected. split; [exact Hrun|]. split.
  - subst expected. by rewrite length_fmap, length_seq, Hn.
  - intros k code Hcode. subst expected.
    rewrite list_lookup_fmap in Hcode.
    destruct (seq 0 (Z.to_nat n) !! k) as [k'|] eqn:Hseq; [|done].
    apply lookup_seq in Hseq as [-> Hk]. simpl in Hcode. injection Hcode as <-.
    destruct (lookup_lt_is_Some_2 stellar_masses k ltac:(lia)) as [m Hm].
    exists m. split; [done|]. by rewrite Hm.
Qed.


(** X3: [setup_disks_and_codes] on the entries of the stars with a
    disk (lists of one length, stellar masses positive).
    - With at least one star and a count of integrators of at least 1 it
      returns: it sets up [min(number_of_vaders, len(stellar_masses))]
      integrators, integrator [k] with the temperature normalisation of
      star [k], and one disk per star, in the order of the stars, each
      made from the entries of its star and the grid of integrator 0.
    - With at least one star and a count that is not positive it
      raises: no integrator is set up, and the first disk asks for
      [viscous_codes[0]].
    - With no star it returns no integrator and no disk, whatever the
      count, and the [run_disks] that follows raises. *)
Theorem setup_disks_and_codes_integrators_and_disks
    (new_disk : Z → R → R → R → R → R → Code → Disk.t)
    (star_keys : list Z)
    (disk_radii disk_masses stellar_masses : list R)
    (dispersed_masses dispersed_densities : list R)
    (number_of_vaders : Z) :
  length star_keys = length stellar_masses →
  length disk_radii = length stellar_masses →
  length disk_masses = length stellar_masses →
  length dispersed_masses = length stellar_masses →
  length dispersed_densities = length stellar_masses →
  Forall (λ m, 0 < m) stellar_masses →
  let result :=
    setup_disks_and_codes new_disk star_keys disk_radii disk_masses
      stellar_masses dispersed_masses dispersed_densities number_of_vaders in
  (stellar_masses ≠ [] → (1 ≤ number_of_vaders)%Z →
   ∃ codes disks,
     result = Some (codes, disks)
     ∧ length codes
       = Z.to_nat (Z.min number_of_vaders (Z.of_nat (length stellar_masses)))
     ∧ (∀ (k : nat) code, codes !! k = Some code →
          ∃ m, stellar_masses !! k = Some m
               ∧ code = mkCode k (100 * Rpower m (1 / 4)))
     ∧ length disks = length stellar_masses
     ∧ ∀ (i : nat) d, disks !! i = Some d →
         ∃ key r m sm dm dd code0,
           star_keys !! i = Some key ∧ disk_radii !! i = Some r
           ∧ disk_masses !! i = Some m ∧ stellar_masses !! i = Some sm
           ∧ dispersed_masses !! i = Some dm
           ∧ dispersed_densities !! i = Some dd
           ∧ codes !! 0%nat = Some code0
           ∧ d = new_disk key r m sm dm dd code0)
  ∧ (stellar_masses ≠ [] → (number_of_vaders ≤ 0)%Z → result = None)
  ∧ (stellar_masses = [] →
     result = Some ([], [])
     ∧ ∀ (C : Collaborators) dt, run_disks [] [] dt = None).
Proof.
  intros Hkeys Hradii Hmasses Hdm Hdd _ result. subst result.
  unfold setup_disks_and_codes.
  destruct (setup_codes_spec stellar_masses number_of_vaders)
    as (codes & -> & Hlen & Hcodes).
  cbn [mbind option_bind].
  set (make := λ i : Z,
         key ← star_keys !! Z.to_nat i;
         disk_radius ← disk_radii !! Z.to_nat i;
         disk_mass ← disk_masses !! Z.to_nat i;
         stellar_mass ← stellar_masses !! Z.to_nat i;
         dispersed_mass ← dispersed_masses !! Z.to_nat i;
         dispersed_density ← dispersed_densities !! Z.to_nat i;
         code ← codes !! 0%nat;
         Some (new_disk key disk_radius disk_mass stellar_mass
                 dispersed_mass dispersed_density code)).
  split; [|split].
  - intros Hne Hnv.
    assert (Hpos : (0 < length stellar_masses)%nat).
    { destruct stellar_masses; [done|simpl; lia]. }
    destruct (lookup_lt_is_Some_2 codes 0) as [code0 Hcode0]; [lia|].
    assert (Hmake : ∀ i : nat, (i < length stellar_masses)%nat →
              ∃ key r m sm dm dd,
                star_keys !! i = Some key ∧ disk_radii !! i = Some r
                ∧ disk_masses !! i = Some m ∧ stellar_masses !! i = Some sm
                ∧ dispersed_masses !! i = Some dm
                ∧ dispersed_densities !! i = Some dd
                ∧ make (Z.of_nat i) = Some (new_disk key r m sm dm dd code0)).
    { intros i Hi.
      destruct (lookup_lt_is_Some_2 star_keys i) as [key Hk]; [lia|].
      destruct (lookup_lt_is_Some_2 disk_radii i) as [r Hr]; [lia|].
      destruct (lookup_lt_is_Some_2 disk_masses i) as [m Hm]; [lia|].
      destruct (lookup_lt_is_Some_2 stellar_masses i) as [sm Hsm]; [lia|].
      destruct (lookup_lt_is_Some_2 dispersed_masses i) as [dm Hdm']; [lia|].
      destruct (lookup_lt_is_Some_2 dispersed_densities i) as [dd Hdd']; [lia|].
      exists key, r, m, sm, dm, dd. repeat (split; [done|]).
      subst make. cbv beta. rewrite Nat2Z.id.
      by rewrite Hk, Hr, Hm, Hsm, Hdm', Hdd', Hcode0. }
    assert (Hsome : is_Some (mapM make (Py.range (Z.of_nat (length stellar_masses))))).
    { apply mapM_is_Some, Forall_forall. intros i Hi. unfold Py.range in Hi.
      apply elem_of_seqZ in Hi.
      destruct (Hmake (Z.to_nat i)) as (? & ? & ? & ? & ? & ? & _ & _ & _ & _ & _ & _ & Hmk);
        [lia|].
      rewrite Z2Nat.id in Hmk by lia. simpl. by rewrite Hmk. }
    destruct Hsome as [disks Hdisks]. rewrite Hdisks. cbn [mbind option_bind].
    exists codes, disks. split; [done|]. split; [done|]. split; [done|].
    apply mapM_Some in Hdisks. split.
    + apply Forall2_length in Hdisks. rewrite <- Hdisks.
      unfold Py.range. by rewrite length_seqZ, Nat2Z.id.
    + intros i d Hd.
      destruct (Forall2_lookup_r _ _ _ _ _ Hdisks Hd) as (x & Hx & Hmk).
      unfold Py.range in Hx. apply lookup_seqZ in Hx as [-> Hi].
      destruct (Hmake i ltac:(lia))
        as (key & r & m & sm & dm & dd & ? & ? & ? & ? & ? & ? & Hmk').
      replace (0 + Z.of_nat i)%Z with (Z.of_nat i) in Hmk by lia.
      rewrite Hmk' in Hmk. injection Hmk as <-.
      exists key, r, m, sm, dm, dd, code0. by repeat (split; [done|]).
  - intros Hne Hnv.
    assert (Hnil : codes = []).
    { apply length_zero_iff_nil. rewrite Hlen. lia. }
    subst codes.
    destruct stellar_masses as [|m0 masses]; [done|].
    unfold Py.range. rewrite seqZ_cons by (simpl; lia).
    cbn [mapM mbind option_bind]. subst make. cbv beta.
    destruct (star_keys !! Z.to_nat 0); [|done]. cbn [mbind option_bind].
    destruct (disk_radii !! Z.to_nat 0); [|done]. cbn [mbind option_bind].
    destruct (disk_masses !! Z.to_nat 0); [|done]. cbn [mbind option_bind].
    destruct ((m0 :: masses) !! Z.to_nat 0); [|done]. cbn [mbind option_bind].
    destruct (dispersed_masses !! Z.to_nat 0); [|done]. cbn [mbind option_bind].
    destruct (dispersed_densities !! Z.to_nat 0); [|done]. done.
  - intros ->. simpl in Hlen.
    assert (Hnil : codes = []).
    { apply length_zero_iff_nil. rewrite Hlen. lia. }
    subst codes. split; [reflexivity|]. intros C dt. reflexivity.
Qed.

End DispatchMore.

Module MainLoopFacts.
Import MainLoop.
Local Open Scope R_scope.

(** *** The index of the disks *)

Lemma index_loop_snoc (disks : list Disk.t) (d : Disk.t) :
  foldl (λ '(map, i) d, (<[Disk.key d := i]> map, S i)) (∅, 0%nat) (disks ++ [d])
  = (<[Disk.key d := length disks]> (map_disk_indices_to_stars disks),
     S (length disks)).
Proof.
  rewrite foldl_app. unfold map_disk_indices_to_stars. simpl.
  assert (Hcount : ∀ (l : list Disk.t) (m : gmap Z nat) (n : nat),
            snd (foldl (λ '(map, i) d, (<[Disk.key d := i]> map, S i)) (m, n) l)
            = (n + length l)%nat).
  { induction l as [|a l IH]; intros m n; simpl; [lia|]. rewrite IH. lia. }
  specialize (Hcount disks ∅ 0%nat).
  destruct (foldl _ _ disks) as [m n]. simpl in *. by subst n.
Qed.

Lemma map_disk_indices_snoc (disks : list Disk.t) (d : Disk.t) :
  map_disk_indices_to_stars (disks ++ [d])
  = <[Disk.key d := length disks]> (map_disk_indices_to_stars disks).
Proof.
  unfold map_disk_indices_to_stars at 1. by rewrite index_loop_snoc.
Qed.

Lemma map_disk_indices_sound (disks : list Disk.t) (k : Z) (j : nat) :
  map_disk_indices_to_stars disks !! k = Some j →
  ∃ d, disks !! j = Some d ∧ Disk.key d = k
       ∧ ∀ j' d', disks !! j' = Some d' → Disk.key d' = k → (j' ≤ j)%nat.
Proof.
  revert j. induction disks as [|d disks IH] using rev_ind; intros j Hj.
  - done.
  - rewrite map_disk_indices_snoc in Hj.
    destruct (decide (Disk.key d = k)) as [Hk|Hk].
    + rewrite Hk, lookup_insert_eq in Hj. injection Hj as <-.
      exists d. split; [by rewrite lookup_app_r, Nat.sub_diag by lia|].
      split; [done|]. intros j' d' Hd' _.
      apply lookup_lt_Some in Hd'. rewrite length_app in Hd'. simpl in Hd'. lia.
    + rewrite lookup_insert_ne in Hj by done.
      destruct (IH j Hj) as (d0 & Hd0 & Hk0 & Hlast).
      exists d0. split; [by apply lookup_app_l_Some|]. split; [done|].
      intros j' d' Hd' Hk'.
      apply lookup_app_Some in Hd' as [Hd'|[Hge Hd']].
      * by eapply Hlast.
      * apply list_lookup_singleton_Some in Hd' as [_ <-]. congruence.
Qed.

Lemma map_disk_indices_None (disks : list Disk.t) (k : Z) :
  map_disk_indices_to_stars disks !! k = None ↔ k ∉ Disk.key <$> disks.
Proof.
  induction disks as [|d disks IH] using rev_ind.
  - split; [intros _ Hin; by apply elem_of_nil in Hin|done].
  - rewrite map_disk_indices_snoc, fmap_app, not_elem_of_app. simpl.
    rewrite lookup_insert_None, IH, not_elem_of_cons. split.
    + intros [Hnot Hne]. split; [done|]. split; [congruence|apply not_elem_of_nil].
    + intros [Hnot [Hne _]]. split; [done|congruence].
Qed.

(** X4: [map_disk_indices_to_stars] maps exactly the keys of the disks;
    the index it gives for a key is that of a disk with that key, the last
    one in the list if several disks have it; and when the keys of the
    disks are distinct, looking up the key of the disk at position [j]
    gives [j] back. *)
Theorem map_disk_indices_round_trip (disks : list Disk.t) :
  (∀ k j, map_disk_indices_to_stars disks !! k = Some j →
          ∃ d, disks !! j = Some d ∧ Disk.key d = k
               ∧ ∀ j' d', disks !! j' = Some d' → Disk.key d' = k → (j' ≤ j)%nat)
  ∧ (∀ k, map_disk_indices_to_stars disks !! k = None ↔ k ∉ Disk.key <$> disks)
  ∧ (NoDup (Disk.key <$> disks) →
     ∀ j d, disks !! j = Some d →
            map_disk_indices_to_stars disks !! Disk.key d = Some j
            ∧ Bookkeeping.disk_of disks (map_disk_indices_to_stars disks)
                (Disk.key d) = Some d).
Proof.
  split; [exact (map_disk_indices_sound disks)|].
  split; [exact (map_disk_indices_None disks)|].
  intros Hnd j d Hd.
  destruct (map_disk_indices_to_stars disks !! Disk.key d) as [j0|] eqn:Hj0.
  - destruct (map_disk_indices_sound disks _ _ Hj0) as (d0 & Hd0 & Hk0 & _).
    assert (j0 = j) as ->.
    { eapply (NoDup_lookup _ _ _ _ Hnd).
      - rewrite list_lookup_fmap, Hd0. simpl. by rewrite Hk0.
      - by rewrite list_lookup_fmap, Hd. }
    split; [done|]. unfold Bookkeeping.disk_of. rewrite Hj0. simpl. done.
  - apply map_disk_indices_None in Hj0. exfalso. apply Hj0.
    apply list_elem_of_fmap. exists d. split; [done|].
    by eapply list_elem_of_lookup_2.
Qed.

End MainLoopFacts.

Module EncounterMore.
Import Encounter EncounterFacts EncounterFrame MainLoop.
Local Open Scope R_scope.

Lemma length_sub_swap (a b : Vec3.t) :
  Vec3.length (Vec3.sub a b) = Vec3.length (Vec3.sub b a).
Proof. unfold Vec3.length, Vec3.sub. simpl. f_equal. ring. Qed.

Lemma length_cross_swap (a b c d : Vec3.t) :
  Vec3.length (Vec3.cross (Vec3.sub a b) (Vec3.sub c d))
  = Vec3.length (Vec3.cross (Vec3.sub b a) (Vec3.sub d c)).
Proof. unfold Vec3.length, Vec3.cross, Vec3.sub. simpl. f_equal. ring. Qed.

Section facts.
Context {U : Units} {C : Collaborators}.

(** X5: the periastron distance of a pair does not depend on which of the
    two stars comes first. *)
Theorem periastron_distance_swap (s0 s1 : Star.t) :
  periastron_distance [s0; s1] = periastron_distance [s1; s0].
Proof.
  unfold periastron_distance. simpl. f_equal.
  rewrite (length_sub_swap (Star.velocity s1) (Star.velocity s0)).
  rewrite (length_sub_swap (Star.position s1) (Star.position s0)).
  rewrite (length_cross_swap (Star.position s1) (Star.position s0)
             (Star.velocity s1) (Star.velocity s0)).
  by rewrite (Rplus_comm (Star.mass s1) (Star.mass s0)).
Qed.

(** X6: for two stars of positive mass, when no disk reaches beyond its
    truncation radius (and for stars without a disk), [resolve_encounter]
    changes the collisional radii of the two stars and nothing else: the
    disks are as they were and [truncate] is not called. *)
Theorem resolve_encounter_without_truncation
    (s0 s1 : Star.t) (d0 d1 : option Disk.t) (time mfe tp ca : R) :
  0 < Star.mass s0 → 0 < Star.mass s1 →
  periastron_distance [s0; s1] = Some ca →
  (∀ d, d0 = Some d →
        Disk.disk_radius d <= ca * tp * Rpower (Star.mass s0 / Star.mass s1) mfe) →
  (∀ d, d1 = Some d →
        Disk.disk_radius d <= ca * tp * Rpower (Star.mass s1 / Star.mass s0) mfe) →
  resolve_encounter [s0; s1] [d0; d1] time mfe tp
  = Some (mkState [Star.set_collisional_radius (0.49 * ca) s0;
                   Star.set_collisional_radius (0.49 * ca) s1]
            [d0; d1] []).
Proof.
  intros _ _ Hca H0 H1. unfold resolve_encounter. rewrite Hca.
  cbn [mbind option_bind]. change (Py.range 2) with [0%Z; 1%Z].
  cbn [Py.for_each].
  assert (Hfirst : resolve_encounter_body time mfe tp ca
                     (mkState [s0; s1] [d0; d1] []) 0
                   = Some (mkState [Star.set_collisional_radius (0.49 * ca) s0; s1]
                             [d0; d1] [])).
  { destruct d0 as [disk|]; [|reflexivity].
    unfold resolve_encounter_body. simpl.
    rewrite bool_decide_eq_false_2; [reflexivity|].
    specialize (H0 disk eq_refl). lra. }
  rewrite Hfirst. cbn [mbind option_bind].
  destruct d1 as [disk|]; [|reflexivity].
  unfold resolve_encounter_body. simpl.
  rewrite bool_decide_eq_false_2; [reflexivity|].
  specialize (H1 disk eq_refl). lra.
Qed.

Lemma body_first_truncation time mfe tp ca s0 s1 disk d1 cs :
  let r := ca * tp * Rpower (Star.mass s0 / Star.mass s1) mfe in
  0.1 < r < Disk.disk_radius disk →
  resolve_encounter_body time mfe tp ca (mkState [s0; s1] [Some disk; d1] cs) 0
  = Some (mkState
            [Star.set_disk_mass (Disk.disk_mass (truncate disk r))
               (Star.set_disk_radius (Disk.disk_radius (truncate disk r))
                  (Star.set_last_encounter time
                     (Star.set_collisional_radius (0.49 * ca) s0)));
             s1]
            [Some (truncate disk r); d1] (cs ++ [mkCall 0 disk r])).
Proof.
  intros r [Hlo Hhi]. unfold resolve_encounter_body. simpl. fold r.
  rewrite (bool_decide_eq_true_2 (r < _)) by done.
  rewrite (bool_decide_eq_false_2 (r <= 0.1)) by lra.
  reflexivity.
Qed.

Lemma body_second_truncation time mfe tp ca s0 s1 d0 disk cs :
  let r := ca * tp * Rpower (Star.mass s1 / Star.mass s0) mfe in
  0.1 < r < Disk.disk_radius disk →
  resolve_encounter_body time mfe tp ca (mkState [s0; s1] [d0; Some disk] cs) 1
  = Some (mkState
            [s0;
             Star.set_disk_mass (Disk.disk_mass (truncate disk r))
               (Star.set_disk_radius (Disk.disk_radius (truncate disk r))
                  (Star.set_last_encounter time
                     (Star.set_collisional_radius (0.49 * ca) s1)))]
            [d0; Some (truncate disk r)] (cs ++ [mkCall 1 disk r])).
Proof.
  intros r [Hlo Hhi]. unfold resolve_encounter_body. simpl. fold r.
  rewrite (bool_decide_eq_true_2 (r < _)) by done.
  rewrite (bool_decide_eq_false_2 (r <= 0.1)) by lra.
  reflexivity.
Qed.

(** X7: two stars of positive mass whose disks are cut above the floor
    of 0.1 au.  Each disk is
    truncated once, at its truncation radius and as it is (it is not
    marked dispersed); the star gets the radius and the mass of the disk
    that [truncate] returns and the time of the encounter as its last
    encounter.  No dispersal time is set and no truncation mass loss is
    recorded: apart from these three attributes and the collisional
    radius the stars are as before. *)
Theorem resolve_encounter_truncates_above_floor
    (s0 s1 : Star.t) (disk0 disk1 : Disk.t) (time mfe tp ca : R) :
  0 < Star.mass s0 → 0 < Star.mass s1 →
  periastron_distance [s0; s1] = Some ca →
  let r0 := ca * tp * Rpower (Star.mass s0 / Star.mass s1) mfe in
  let r1 := ca * tp * Rpower (Star.mass s1 / Star.mass s0) mfe in
  0.1 < r0 < Disk.disk_radius disk0 →
  0.1 < r1 < Disk.disk_radius disk1 →
  resolve_encounter [s0; s1] [Some disk0; Some disk1] time mfe tp
  = Some (mkState
            [Star.set_disk_mass (Disk.disk_mass (truncate disk0 r0))
               (Star.set_disk_radius (Disk.disk_radius (truncate disk0 r0))
                  (Star.set_last_encounter time
                     (Star.set_collisional_radius (0.49 * ca) s0)));
             Star.set_disk_mass (Disk.disk_mass (truncate disk1 r1))
               (Star.set_disk_radius (Disk.disk_radius (truncate disk1 r1))
                  (Star.set_last_encounter time
                     (Star.set_collisional_radius (0.49 * ca) s1)))]
            [Some (truncate disk0 r0); Some (truncate disk1 r1)]
            [mkCall 0 disk0 r0; mkCall 1 disk1 r1]).
Proof.
  intros _ _ Hca r0 r1 [Hlo0 Hhi0] [Hlo1 Hhi1].
  unfold resolve_encounter. rewrite Hca.
  cbn [mbind option_bind]. change (Py.range 2) with [0%Z; 1%Z].
  cbn [Py.for_each].
  rewrite body_first_truncation by done. cbn [mbind option_bind]. fold r0.
  rewrite body_second_truncation by done. reflexivity.
Qed.

Lemma untouched_refl (s : Star.t) : untouched s s.
Proof. unfold untouched. repeat split; reflexivity. Qed.

Ltac solve_untouched :=
  unfold untouched; simpl; repeat split; first [reflexivity | lra].

Lemma body_first_frame time mfe tp ca s0 s1 d0 d1 cs :
  ∃ s0' d0' cs',
    resolve_encounter_body time mfe tp ca (mkState [s0; s1] [d0; d1] cs) 0
    = Some (mkState [s0'; s1] [d0'; d1] (cs ++ cs'))
    ∧ untouched s0 s0'
    ∧ possible_calls 0 d0 (ca * tp * Rpower (Star.mass s0 / Star.mass s1) mfe) cs'.
Proof.
  unfold resolve_encounter_body. destruct d0 as [disk|]; simpl.
  - case_bool_decide; [case_bool_decide|]; simpl.
    + eexists _, _, [_]. split; [reflexivity|]. split; [solve_untouched|].
      right. exists disk. split; [done|]. by right.
    + eexists _, _, [_]. split; [reflexivity|]. split; [solve_untouched|].
      right. exists disk. split; [done|]. by left.
    + eexists _, _, []. rewrite app_nil_r. split; [reflexivity|].
      split; [solve_untouched|]. by left.
  - eexists _, _, []. rewrite app_nil_r. split; [reflexivity|].
    split; [solve_untouched|]. by left.
Qed.

Lemma body_second_frame time mfe tp ca s0 s1 d0 d1 cs :
  ∃ s1' d1' cs',
    resolve_encounter_body time mfe tp ca (mkState [s0; s1] [d0; d1] cs) 1
    = Some (mkState [s0; s1'] [d0; d1'] (cs ++ cs'))
    ∧ untouched s1 s1'
    ∧ possible_calls 1 d1 (ca * tp * Rpower (Star.mass s1 / Star.mass s0) mfe) cs'.
Proof.
  unfold resolve_encounter_body. destruct d1 as [disk|]; simpl.
  - case_bool_decide; [case_bool_decide|]; simpl.
    + eexists _, _, [_]. split; [reflexivity|]. split; [solve_untouched|].
      right. exists disk. split; [done|]. by right.
    + eexists _, _, [_]. split; [reflexivity|]. split; [solve_untouched|].
      right. exists disk. split; [done|]. by left.
    + eexists _, _, []. rewrite app_nil_r. split; [reflexivity|].
      split; [solve_untouched|]. by left.
  - eexists _, _, []. rewrite app_nil_r. split; [reflexivity|].
    split; [solve_untouched|]. by left.
Qed.

(** What [resolve_encounter] does to any pair, in one statement. *)
Lemma resolve_encounter_frame
    (s0 s1 : Star.t) (d0 d1 : option Disk.t) (time mfe tp : R) :
  ∃ ca s0' s1' d0' d1' cs0 cs1,
    periastron_distance [s0; s1] = Some ca
    ∧ resolve_encounter [s0; s1] [d0; d1] time mfe tp
      = Some (mkState [s0'; s1'] [d0'; d1'] (cs0 ++ cs1))
    ∧ untouched s0 s0' ∧ untouched s1 s1'
    ∧ possible_calls 0 d0 (ca * tp * Rpower (Star.mass s0 / Star.mass s1) mfe) cs0
    ∧ possible_calls 1 d1 (ca * tp * Rpower (Star.mass s1 / Star.mass s0) mfe) cs1.
Proof.
  destruct (periastron_distance_pair s0 s1) as [ca Hca].
  unfold resolve_encounter. rewrite Hca. cbn [mbind option_bind].
  change (Py.range 2) with [0%Z; 1%Z]. cbn [Py.for_each].
  destruct (body_first_frame time mfe tp ca s0 s1 d0 d1 [])
    as (s0' & d0' & cs0 & -> & Hu0 & Hc0).
  cbn [mbind option_bind].
  destruct (body_second_frame time mfe tp ca s0' s1 d0' d1 ([] ++ cs0))
    as (s1' & d1' & cs1 & -> & Hu1 & Hc1).
  cbn [mbind option_bind].
  exists ca, s0', s1', d0', d1', cs0, cs1.
  split; [done|]. split; [done|]. split; [done|]. split; [done|].
  split; [done|].
  destruct Hu0 as (_ & _ & _ & Hm & _). by rewrite Hm in Hc1.
Qed.

(** X8: whatever the pair and its disks, [resolve_encounter] returns, and
    it leaves the key, position, velocity, masses, flags, gas and dust
    mass and received radiation of both stars as they were: a star whose
    disk the encounter disperses is still [disked] afterwards.  The
    cumulative truncation mass loss of a star never changes either: the
    only addition to it is of the disk mass after that has been set to
    zero.  [truncate] is called at most once per star. *)
Theorem resolve_encounter_leaves_untouched
    (s0 s1 : Star.t) (d0 d1 : option Disk.t) (time mfe tp : R) :
  ∃ st s0' s1',
    resolve_encounter [s0; s1] [d0; d1] time mfe tp = Some st
    ∧ stars st = [s0'; s1']
    ∧ untouched s0 s0' ∧ untouched s1 s1'
    ∧ length (disks st) = 2%nat
    ∧ (length (filter (λ c, call_index c = 0%Z) (calls st)) ≤ 1)%nat
    ∧ (length (filter (λ c, call_index c = 1%Z) (calls st)) ≤ 1)%nat.
Proof.
  destruct (resolve_encounter_frame s0 s1 d0 d1 time mfe tp)
    as (ca & s0' & s1' & d0' & d1' & cs0 & cs1 & _ & -> & Hu0 & Hu1 & Hc0 & Hc1).
  eexists _, s0', s1'. split; [reflexivity|]. simpl.
  split; [done|]. split; [done|]. split; [done|]. split; [done|].
  destruct Hc0 as [->|(k0 & _ & [->| ->])], Hc1 as [->|(k1 & _ & [->| ->])];
    simpl; split; repeat case_decide; simpl; lia.
Qed.

(** X9: in the main loop a star that is not [disked] (a bright star, or
    one whose disk was found dispersed at the end of an earlier step) is
    given no disk, so that no encounter truncates a disk of such a star;
    a disked star is given the disk that [disk_indices] names for its
    key.  The resolution returns when each disked star of the pair has
    such a disk. *)
Theorem reported_encounter_truncates_disked_only
    (disks : list Disk.t) (disk_indices : gmap Z nat)
    (s0 s1 : Star.t) (time : R) :
  (Star.disked s0 = true →
   is_Some (Bookkeeping.disk_of disks disk_indices (Star.key s0))) →
  (Star.disked s1 = true →
   is_Some (Bookkeeping.disk_of disks disk_indices (Star.key s1))) →
  ∃ st,
    resolve_reported_encounter disks disk_indices s0 s1 time = Some st
    ∧ ∀ c, c ∈ calls st →
        (call_index c = 0%Z ∧ Star.disked s0 = true
         ∧ ∃ d, Bookkeeping.disk_of disks disk_indices (Star.key s0) = Some d
                ∧ (receiver c = d ∨ receiver c = Disk.set_dispersed true d))
        ∨ (call_index c = 1%Z ∧ Star.disked s1 = true
           ∧ ∃ d, Bookkeeping.disk_of disks disk_indices (Star.key s1) = Some d
                  ∧ (receiver c = d ∨ receiver c = Disk.set_dispersed true d)).
Proof.
  intros H0 H1. unfold resolve_reported_encounter, encountering_disks.
  set (o0 := if Star.disked s0
             then Bookkeeping.disk_of disks disk_indices (Star.key s0) else None).
  set (o1 := if Star.disked s1
             then Bookkeeping.disk_of disks disk_indices (Star.key s1) else None).
  assert (Hds : (if Star.disked s0 && Star.disked s1
                 then disk0 ← Bookkeeping.disk_of disks disk_indices (Star.key s0);
                      disk1 ← Bookkeeping.disk_of disks disk_indices (Star.key s1);
                      Some [Some disk0; Some disk1]
                 else if Star.disked s0 && negb (Star.disked s1)
                 then disk0 ← Bookkeeping.disk_of disks disk_indices (Star.key s0);
                      Some [Some disk0; None]
                 else if negb (Star.disked s0) && Star.disked s1
                 then disk1 ← Bookkeeping.disk_of disks disk_indices (Star.key s1);
                      Some [None; Some disk1]
                 else Some [None; None]) = Some [o0; o1]).
  { subst o0 o1.
    destruct (Star.disked s0), (Star.disked s1); simpl; try done.
    - destruct (H0 eq_refl) as [a ->], (H1 eq_refl) as [b ->]. done.
    - destruct (H0 eq_refl) as [a ->]. done.
    - destruct (H1 eq_refl) as [b ->]. done. }
  rewrite Hds. cbn [mbind option_bind]. unfold resolve_encounter_default.
  destruct (resolve_encounter_frame s0 s1 o0 o1 time 0.2 (1 / 3))
    as (ca & s0' & s1' & d0' & d1' & cs0 & cs1 & _ & -> & _ & _ & Hc0 & Hc1).
  eexists. split; [reflexivity|]. simpl.
  intros c [Hc|Hc]%elem_of_app.
  - left. destruct Hc0 as [->|(d & Hd & Hcs)]; [by apply elem_of_nil in Hc|].
    subst o0. destruct (Star.disked s0); [|done].
    destruct Hcs as [-> | ->]; apply list_elem_of_singleton in Hc as ->; simpl;
      (split; [done|]; split; [done|]; exists d; split; [done|]; auto).
  - right. destruct Hc1 as [->|(d & Hd & Hcs)]; [by apply elem_of_nil in Hc|].
    subst o1. destruct (Star.disked s1); [|done].
    destruct Hcs as [-> | ->]; apply list_elem_of_singleton in Hc as ->; simpl;
      (split; [done|]; split; [done|]; exists d; split; [done|]; auto).
Qed.

End facts.
End EncounterMore.

Module RadiationMore.
Import Particles Photoevaporation PhotoevaporationFacts EUVFlagFacts LuminosityFacts.
Local Open Scope R_scope.

Lemma with_key_assign_key (i : Z) (f : Star.t → Star.t) (ss : list Star.t) :
  (∀ s, Star.key (f s) = Star.key s) →
  with_key i (assign_key i f ss) = f <$> with_key i ss.
Proof.
  intros Hf. unfold with_key, assign_key.
  induction ss as [|a ss IH]; [done|].
  rewrite fmap_cons. destruct (decide (Star.key a = i)) as [Ha|Ha].
  - rewrite !filter_cons_True by (by rewrite ?Hf). by rewrite fmap_cons, IH.
  - rewrite !filter_cons_False by done. exact IH.
Qed.

Lemma with_key_assign_other (i j : Z) (f : Star.t → Star.t) (ss : list Star.t) :
  i ≠ j → (∀ s, Star.key (f s) = Star.key s) →
  with_key i (assign_key j f ss) = with_key i ss.
Proof.
  intros Hij Hf. unfold with_key, assign_key.
  induction ss as [|a ss IH]; [done|].
  rewrite fmap_cons. destruct (decide (Star.key a = j)) as [Ha|Ha].
  - rewrite !filter_cons_False by (rewrite ?Hf; congruence). exact IH.
  - destruct (decide (Star.key a = i)).
    + rewrite !filter_cons_True by done. by rewrite IH.
    + rewrite !filter_cons_False by done. exact IH.
Qed.

Lemma luminosity_fit_nonneg (mass : R) : 0 <= luminosity_fit mass.
Proof.
  unfold luminosity_fit.
  repeat (case_bool_decide; cbn [andb]);
    try (apply Rmult_le_pos; [lra | left; apply Rpower_pos]); lra.
Qed.

Lemma div_nonneg (a b : R) : 0 <= a → 0 <= b → 0 <= a / b.
Proof.
  intros Ha [Hb| <-].
  - apply Rmult_le_pos; [done|]. left. by apply Rinv_0_lt_compat.
  - unfold Rdiv. rewrite Rinv_0. lra.
Qed.

Lemma distance_nonneg (a b : Star.t) : 0 <= distance a b.
Proof. unfold distance. apply sqrt_pos. Qed.

Lemma distance_sym (a b : Star.t) : distance a b = distance b a.
Proof. unfold distance. f_equal. ring. Qed.

Lemma distance_zero (a b : Star.t) :
  distance a b = 0 ↔ Star.position a = Star.position b.
Proof.
  unfold distance. split.
  - destruct (Star.position a) as [xa ya za], (Star.position b) as [xb yb zb].
    cbn [Vec3.x Vec3.y Vec3.z].
    pose proof (pow2_ge_0 (xb - xa)) as Hx.
    pose proof (pow2_ge_0 (yb - ya)) as Hy.
    pose proof (pow2_ge_0 (zb - za)) as Hz.
    intros Hd. apply sqrt_eq_0 in Hd; [|lra].
    assert (Hx0 : (xb - xa) ^ 2 = 0) by lra.
    assert (Hy0 : (yb - ya) ^ 2 = 0) by lra.
    assert (Hz0 : (zb - za) ^ 2 = 0) by lra.
    assert (Hsq : ∀ u : R, u ^ 2 = 0 → u = 0).
    { intros u Hu. destruct (Req_dec u 0) as [|Hne]; [done|].
      by apply (pow_nonzero u 2) in Hne. }
    apply Hsq in Hx0, Hy0, Hz0. f_equal; lra.
  - intros ->. replace (_ + _) with 0 by ring. apply sqrt_0.
Qed.

(** X14: [distance] is symmetric and never negative, and it is zero
    exactly for two stars at the same position. *)
Theorem distance_is_a_distance (a b : Star.t) :
  distance a b = distance b a
  ∧ 0 <= distance a b
  ∧ (distance a b = 0 ↔ Star.position a = Star.position b).
Proof.
  split; [apply distance_sym|]. split; [apply distance_nonneg|].
  apply distance_zero.
Qed.

Section facts.
Context {U : Units} {C : Collaborators}.

(** The flux of the bright star [s] on the star [t], in units of [G0]. *)
#[local] Abbreviation flux t s :=
  (luminosity_fit (Star.stellar_mass s) * LSun_erg_s
   / (4 * PI * (distance s t * au_cm) ^ 2) / G0).

(** The bright star [s] is closer to [t] than the distance [dmin] of the
    disk of [t]. *)
#[local] Abbreviation near t s :=
  (bool_decide (distance s t * au_cm
                < 5 * 1e17 * 0.25 * sqrt (Star.disk_radius t * au_cm / 1e14))).

Lemma single_total_radiation_fold (i : Z) (g : Globals) (t : Star.t)
    (bs : list Star.t) (acc : R) (b : bool) :
  with_key i (stars g) = [t] →
  fold_M (single_total_radiation_body i) bs acc
    (if b then assign_EUV i true g else g)
  = Some (foldl (λ a s, a + flux t s) acc bs,
          if b || existsb (λ s, near t s) bs then assign_EUV i true g else g).
Proof.
  intros Ht. revert acc b. induction bs as [|s bs IH]; intros acc b.
  - simpl. by rewrite orb_false_r.
  - cbn [fold_M foldl existsb]. unfold bind at 1.
    set (tb := if b then Star.set_EUV true t else t).
    assert (Htb : with_key i (stars (if b then assign_EUV i true g else g)) = [tb]).
    { subst tb. destruct b; [|done]. unfold assign_EUV. simpl.
      rewrite with_key_assign_key by done. by rewrite Ht. }
    assert (Hbody : single_total_radiation_body i acc s
                      (if b then assign_EUV i true g else g)
                    = Some (acc + flux t s,
                            if b || near t s then assign_EUV i true g else g)).
    { unfold single_total_radiation_body, bind, get_globals, lift.
      rewrite Htb. cbn [fmap list_fmap head truth].
      assert (Hd : distance s tb = distance s t) by (subst tb; by destruct b).
      assert (Hr : Star.disk_radius tb = Star.disk_radius t)
        by (subst tb; by destruct b).
      rewrite Hd, Hr.
      destruct (near t s); unfold modify, ret; simpl.
      - rewrite orb_true_r. destruct b; [by rewrite assign_EUV_idemp|done].
      - by rewrite orb_false_r. }
    rewrite Hbody.
    rewrite (IH (acc + flux t s) (b || near t s)).
    by rewrite orb_assoc.
Qed.

(** X10: for a star [t] that is not bright, [single_total_radiation]
    returns the sum, over the bright stars in the order of the set, of
    the flux of each at the place of [t]: its luminosity over
    [4 * PI * d**2], in units of [G0].  It sets the EUV flag of [t] when
    some bright star is closer than [dmin] and does nothing else to the
    globals; it never lowers the flag. *)
Theorem single_total_radiation_value (i : Z) (g : Globals) (t : Star.t) :
  with_key i (stars g) = [t] →
  Star.bright t = false →
  single_total_radiation i g
  = Some (foldl (λ a s, a + flux t s) 0 (bright_ones (stars g)),
          if existsb (λ s, near t s) (bright_ones (stars g))
          then assign_EUV i true g else g).
Proof.
  intros Ht Hb. unfold single_total_radiation, bind, get_globals.
  rewrite bool_decide_eq_false_2.
  - exact (single_total_radiation_fold i g t (bright_ones (stars g)) 0 false Ht).
  - intros (s & Hk & Hs)%list_elem_of_fmap.
    unfold bright_ones in Hs. apply list_elem_of_filter in Hs as [Hbright Hs].
    assert (Hin : s ∈ with_key i (stars g)).
    { unfold with_key. apply list_elem_of_filter. by split. }
    rewrite Ht in Hin. apply list_elem_of_singleton in Hin as ->. congruence.
Qed.

Lemma flux_nonneg (t s : Star.t) : 0 <= LSun_erg_s → 0 <= flux t s.
Proof.
  intros HL. apply div_nonneg; [|unfold G0; lra].
  apply div_nonneg.
  - apply Rmult_le_pos; [apply luminosity_fit_nonneg|done].
  - pose proof PI_RGT_0. pose proof (pow2_ge_0 (distance s t * au_cm)). nra.
Qed.

Lemma flux_pos (t s : Star.t) :
  0 < LSun_erg_s → 0 < au_cm →
  0 < luminosity_fit (Star.stellar_mass s) →
  Star.position s ≠ Star.position t →
  0 < flux t s.
Proof.
  intros HL Hau Hlum Hpos.
  assert (Hd : 0 < distance s t).
  { destruct (distance_nonneg s t) as [?|Hz]; [done|].
    symmetry in Hz. by apply distance_zero in Hz. }
  apply Rdiv_lt_0_compat; [|unfold G0; lra].
  apply Rdiv_lt_0_compat; [by apply Rmult_lt_0_compat|].
  pose proof PI_RGT_0.
  assert (0 < (distance s t * au_cm) ^ 2) by (apply pow_lt; nra). nra.
Qed.

Lemma sum_flux_nonneg (t : Star.t) (bs : list Star.t) (acc : R) :
  0 <= LSun_erg_s → 0 <= acc → acc <= foldl (λ a s, a + flux t s) acc bs.
Proof.
  intros HL. revert acc.
  induction bs as [|s bs IH]; intros acc Hacc; cbn [foldl]; [lra|].
  pose proof (flux_nonneg t s HL).
  etransitivity; [|apply IH; lra]. lra.
Qed.

Lemma sum_flux_pos (t : Star.t) (bs : list Star.t) (acc : R) (s : Star.t) :
  0 <= LSun_erg_s → 0 <= acc → s ∈ bs → 0 < flux t s →
  0 < foldl (λ a s, a + flux t s) acc bs.
Proof.
  intros HL. revert acc. induction bs as [|b bs IH]; intros acc Hacc Hin Hpos.
  - by apply elem_of_nil in Hin.
  - cbn [foldl]. apply elem_of_cons in Hin as [<-|Hin].
    + eapply Rlt_le_trans; [|apply sum_flux_nonneg; [done|lra]]. lra.
    + pose proof (flux_nonneg t b HL). apply IH; [lra|done|done].
Qed.

(** X11: the radiation [single_total_radiation] returns for a star that
    is not bright is never negative, and it is strictly positive as soon
    as one bright star has a positive luminosity and is not at the very
    place of the star. *)
Theorem single_total_radiation_sign (i : Z) (g : Globals) (t : Star.t) :
  with_key i (stars g) = [t] →
  Star.bright t = false →
  0 < LSun_erg_s → 0 < au_cm →
  ∃ radiation g',
    single_total_radiation i g = Some (radiation, g')
    ∧ 0 <= radiation
    ∧ ((∃ s, s ∈ bright_ones (stars g)
             ∧ 0 < luminosity_fit (Star.stellar_mass s)
             ∧ Star.position s ≠ Star.position t) →
       0 < radiation).
Proof.
  intros Ht Hb HL Hau. eexists _, _.
  split; [by apply single_total_radiation_value|].
  split; [apply sum_flux_nonneg; lra|].
  intros (s & Hs & Hlum & Hpos).
  apply (sum_flux_pos t _ 0 s); [lra|lra|done|]. by apply flux_pos.
Qed.

(** *** The mass-loss stage *)

Lemma single_photoevaporation_mass_loss_Some (i : Z) (g g' : Globals) (r : R) :
  single_photoevaporation_mass_loss i g = Some (r, g') → g' = assign_EUV i false g.
Proof.
  unfold single_photoevaporation_mass_loss, bind, get_globals, lift, modify, ret.
  destruct (disk_indices g !! i) as [j|]; [|done].
  destruct (disks g !! j) as [d|]; [|done].
  destruct (head (with_key i (stars g))) as [s|]; [|done].
  destruct (truth (Star.EUV <$> with_key i (stars g))) as [e|]; [|done].
  by intros [= _ <-].
Qed.

Lemma single_photoevaporation_mass_loss_no_disk (i : Z) (g : Globals) :
  Bookkeeping.disk_of (disks g) (disk_indices g) i = None →
  single_photoevaporation_mass_loss i g = None.
Proof.
  unfold Bookkeeping.disk_of.
  unfold single_photoevaporation_mass_loss, bind, get_globals, lift.
  destruct (disk_indices g !! i) as [j|]; [|done]. simpl.
  by intros ->.
Qed.

Lemma map_M_mass_loss_no_disk (indices : list Z) (g : Globals) (i : Z) :
  i ∈ indices →
  Bookkeeping.disk_of (disks g) (disk_indices g) i = None →
  map_M single_photoevaporation_mass_loss indices g = None.
Proof.
  revert g. induction indices as [|j indices IH]; intros g Hin Hnone.
  - by apply elem_of_nil in Hin.
  - cbn [map_M]. unfold bind at 1.
    apply elem_of_cons in Hin as [->|Hin].
    + by rewrite single_photoevaporation_mass_loss_no_disk.
    + destruct (single_photoevaporation_mass_loss j g) as [[r g']|] eqn:Hj; [|done].
      apply single_photoevaporation_mass_loss_Some in Hj as ->.
      unfold bind. by rewrite (IH (assign_EUV j false g) Hin Hnone).
Qed.

(** X12: if one of the indices is the key of a star that has no disk (no
    entry in [disk_indices], or an entry beyond the end of [disks]), then
    [photoevaporation_mass_loss] raises and returns no rate at all. *)
Theorem photoevaporation_mass_loss_needs_disks (nc : Z)
    (indices : list Z) (g : Globals) (i : Z) :
  i ∈ indices →
  Bookkeeping.disk_of (disks g) (disk_indices g) i = None →
  photoevaporation_mass_loss indices nc g = None.
Proof.
  intros Hin Hnone. unfold photoevaporation_mass_loss, pool_map.
  destruct (nc <? 1)%Z; [done|].
  by rewrite (map_M_mass_loss_no_disk indices g i).
Qed.

Lemma mass_loss_rates_alone (indices : list Z) (g gc : Globals) :
  well_formed indices g →
  NoDup indices →
  disks gc = disks g → disk_indices gc = disk_indices g →
  (∀ i, i ∈ indices → with_key i (stars gc) = with_key i (stars g)) →
  ∃ rates g',
    map_M single_photoevaporation_mass_loss indices gc = Some (rates, g')
    ∧ Forall2 (λ i r, ∃ gi, single_photoevaporation_mass_loss i g = Some (r, gi))
        indices rates.
Proof.
  intros Hwf. revert gc. induction indices as [|i indices IH];
    intros gc Hnd Hdisks Hidx Hsame.
  - exists [], gc. split; [done|constructor].
  - apply NoDup_cons in Hnd as [Hni Hnd].
    destruct Hwf as [Hkeys Hall].
    destruct (Hall i ltac:(left)) as (Hin & j & d & Hj & Hd).
    destruct (with_key_unique i (stars g) Hkeys Hin) as (s & Hs & _ & _).
    pose proof (single_photoevaporation_mass_loss_eq i g s j d Hs Hj Hd) as Hg.
    pose proof (single_photoevaporation_mass_loss_eq i gc s j d) as Hgc.
    rewrite Hsame, Hdisks, Hidx in Hgc by (by left).
    specialize (Hgc Hs Hj Hd).
    destruct (IH (conj Hkeys (λ k Hk, Hall k (list_elem_of_further _ _ _ Hk)))
                (assign_EUV i false gc) Hnd)
      as (rates & g' & Hrun & Hrates); [done|done| |].
    { intros k Hk. unfold assign_EUV. simpl.
      rewrite with_key_assign_other; [by apply Hsame; right| |done].
      intros ->. done. }
    cbn [map_M]. unfold bind at 1. rewrite Hgc. unfold bind. rewrite Hrun.
    unfold ret. eexists _, g'. split; [reflexivity|].
    constructor; [|done]. eauto.
Qed.

(** X13: the mass-loss evaluations of different stars do not interfere.
    For well-formed globals and indices without repetition,
    [photoevaporation_mass_loss] returns one rate per index, in the order
    of the indices, and each is the rate that evaluating that star alone
    on the globals of the caller gives; the globals of the caller are as
    they were. *)
Theorem mass_loss_rates_do_not_interfere (nc : Z) (indices : list Z)
    (g : Globals) :
  (1 ≤ nc)%Z →
  well_formed indices g →
  NoDup indices →
  ∃ rates,
    photoevaporation_mass_loss indices nc g = Some (rates, g)
    ∧ Forall2 (λ i r, ∃ gi, single_photoevaporation_mass_loss i g = Some (r, gi))
        indices rates.
Proof.
  intros Hnc Hwf Hnd.
  destruct (mass_loss_rates_alone indices g g Hwf Hnd) as (rates & g' & Hrun & Hall);
    [done|done|done|].
  exists rates. split; [|done].
  unfold photoevaporation_mass_loss.
  exact (pool_map_eq nc _ indices g rates g' Hnc Hrun).
Qed.

End facts.
End RadiationMore.

(** ** The EUV flag between the radiation and the mass-loss stage *)

Module EUVFlagExamples.
Import Particles Photoevaporation PhotoevaporationFacts EUVFlagFacts.
Import Scenarios MoreScenarios.
Local Open Scope R_scope.

#[local] Existing Instance units.
#[local] Existing Instance collaborators.







End EUVFlagExamples.

Module LoopMore.
Import Bookkeeping MainLoop.
Local Open Scope R_scope.

(** *** The synchronisation of the stars with their disks *)

Lemma update_star_again disks idx (s s' : Star.t) :
  update_star disks idx s = Some s' →
  Star.disked s' = true →
  update_star disks idx s' = Some s'.
Proof.
  unfold update_star.
  destruct (disk_of disks idx (Star.key s)) as [d|] eqn:Hd; [|done].
  simpl. intros [= <-]. simpl. rewrite Hd. simpl. intros ->.
  by destruct s.
Qed.

Lemma update_star_frame disks idx (s s' : Star.t) :
  update_star disks idx s = Some s' →
  Star.key s' = Star.key s
  ∧ Star.mass s' = Star.mass s
  ∧ Star.stellar_mass s' = Star.stellar_mass s
  ∧ Star.position s' = Star.position s
  ∧ Star.velocity s' = Star.velocity s
  ∧ Star.collisional_radius s' = Star.collisional_radius s.
Proof.
  unfold update_star.
  destruct (disk_of disks idx (Star.key s)) as [d|]; [|done].
  simpl. by intros [= <-].
Qed.

(** X15: the synchronisation of the stars with their disks after
    [run_disks] is idempotent: run a second time with the same disks it
    returns and changes nothing.  It leaves a star that is not disked as
    it is, and never writes [mass], [stellar_mass], the position, the
    velocity or the collisional radius of any star: the [mass] the
    gravity code uses does not follow the disk mass. *)
Theorem update_stars_idempotent (idx : gmap Z nat) (ss ss' : list Star.t)
    (disks : list Disk.t) :
  update_stars idx ss disks = Some ss' →
  update_stars idx ss' disks = Some ss'
  ∧ Forall2 (λ s s', (Star.disked s = false → s' = s)
                     ∧ Star.key s' = Star.key s
                     ∧ Star.mass s' = Star.mass s
                     ∧ Star.stellar_mass s' = Star.stellar_mass s
                     ∧ Star.position s' = Star.position s
                     ∧ Star.velocity s' = Star.velocity s
                     ∧ Star.collisional_radius s' = Star.collisional_radius s)
      ss ss'.
Proof.
  unfold update_stars. intros Hall%mapM_Some. split.
  - apply mapM_Some, Forall_Forall2_diag.
    induction Hall as [|s s' ss ss' Hs _ IH]; constructor; [|done].
    destruct (Star.disked s) eqn:Hd.
    + destruct (Star.disked s') eqn:Hd'; [|done].
      by apply (update_star_again disks idx s).
    + injection Hs as <-. by rewrite Hd.
  - induction Hall as [|s s' ss ss' Hs _ IH]; constructor; [|done].
    destruct (Star.disked s) eqn:Hd.
    + split; [done|]. by apply (update_star_frame disks idx).
    + by injection Hs as <-.
Qed.

(** *** The time loop *)

Lemma evolve_times_done (active : list Z) (t_end t dt : R) :
  t_end <= t → evolve_times active t_end t dt = [].
Proof.
  intros Ht. destruct active as [|a rest]; [done|]. simpl.
  rewrite bool_decide_eq_false_2; [done|lra].
Qed.

Lemma next_dt_bounds (t_end t dt : R) :
  0 < dt → t < t_end →
  0 < next_dt t_end t dt ∧ next_dt t_end t dt <= dt
  ∧ t + next_dt t_end t dt <= t_end.
Proof.
  intros Hdt Ht. unfold next_dt, Rmin.
  destruct (Rle_dec dt (t_end - t)); lra.
Qed.

Lemma evolve_times_bounds (active : list Z) (t_end t dt : R) :
  0 < dt →
  Forall (λ t', t < t' ∧ t' <= t_end) (evolve_times active t_end t dt).
Proof.
  intros Hdt. revert t dt Hdt.
  induction active as [|a rest IH]; intros t dt Hdt; [constructor|].
  cbn [evolve_times]. case_bool_decide as Ht; [|constructor].
  cbv zeta. destruct (next_dt_bounds t_end t dt Hdt Ht) as (Hpos & Hle & Hend).
  constructor; [lra|].
  destruct (a <=? 0)%Z; [constructor|].
  eapply Forall_impl; [apply IH; exact Hpos|].
  simpl. intros t' [? ?]. lra.
Qed.

Lemma evolve_times_increasing (active : list Z) (t_end t dt : R) :
  0 < dt →
  ∀ (i : nat) (t1 t2 : R),
    evolve_times active t_end t dt !! i = Some t1 →
    evolve_times active t_end t dt !! S i = Some t2 →
    t1 < t2.
Proof.
  intros Hdt. revert t dt Hdt.
  induction active as [|a rest IH]; intros t dt Hdt i t1 t2; [done|].
  cbn [evolve_times]. case_bool_decide as Ht; [|done].
  cbv zeta. destruct (next_dt_bounds t_end t dt Hdt Ht) as (Hpos & Hle & Hend).
  destruct (a <=? 0)%Z.
  { destruct i; done. }
  destruct i as [|i].
  - intros [= <-] H2. cbn [lookup list_lookup] in H2.
    pose proof (evolve_times_bounds rest t_end (t + next_dt t_end t dt)
                  (next_dt t_end t dt) Hpos) as Hall.
    rewrite Forall_lookup in Hall. destruct (Hall 0%nat t2 H2). lra.
  - intros H1 H2. exact (IH _ _ Hpos i t1 t2 H1 H2).
Qed.

(** X16: with a positive time step, every pass through
    [while t < t_end] ends at a time later than the one before and never
    later than [t_end]: the loop does not step past the end of the
    simulation, whatever the numbers of active disks are. *)
Theorem evolve_times_within_t_end (active : list Z) (t_end t dt : R) :
  0 < dt →
  Forall (λ t', t < t' ∧ t' <= t_end) (evolve_times active t_end t dt)
  ∧ ∀ (i : nat) (t1 t2 : R),
      evolve_times active t_end t dt !! i = Some t1 →
      evolve_times active t_end t dt !! S i = Some t2 →
      t1 < t2.
Proof.
  intros Hdt. split.
  - by apply evolve_times_bounds.
  - by apply evolve_times_increasing.
Qed.

End LoopMore.

Module InitialFacts.
Import Bookkeeping BookkeepingFacts Initial.
Local Open Scope R_scope.

Lemma initial_attributes_spec (parsec : R) (ss : list Star.t) :
  Forall2 initialised ss (initial_attributes parsec ss).
Proof.
  unfold initial_attributes. rewrite init_flags_fmap. unfold assign_where.
  rewrite <- !list_fmap_compose.
  apply Forall2_fmap_r, Forall_Forall2_diag, Forall_forall.
  intros s _. unfold compose, initialised.
  case_bool_decide; simpl; repeat split; lra.
Qed.

Lemma add_big_star_heavy (big_star : R) (ss ss' : list Star.t) :
  1.9 < big_star →
  add_big_star big_star ss = Some ss' →
  (∀ s, s ∈ ss → Star.stellar_mass s ≠ 1.9) →
  ∃ s, s ∈ ss' ∧ Star.stellar_mass s > 1.9.
Proof.
  intros Hbig. unfold add_big_star. case_bool_decide as Hnone.
  - destruct (ss !! 0%nat) as [s0|] eqn:H0; [|done]. simpl.
    intros [= <-] _. exists (set_stellar_mass big_star s0). split.
    + apply list_elem_of_lookup. exists 0%nat.
      apply list_lookup_insert_eq. by apply lookup_lt_Some in H0.
    + simpl. lra.
  - intros [= <-] Hne.
    destruct (filter (λ s, Star.stellar_mass s >= 1.9) ss) as [|s l] eqn:Hf;
      [done|].
    assert (Hs : s ∈ filter (λ s, Star.stellar_mass s >= 1.9) ss)
      by (rewrite Hf; left).
    apply list_elem_of_filter in Hs as [Hge Hin].
    exists s. split; [done|]. specialize (Hne s Hin).
    destruct Hge as [?|?]; [done|contradiction].
Qed.

Lemma add_big_star_unchanged (big_star : R) (ss : list Star.t) (s : Star.t) :
  s ∈ ss → Star.stellar_mass s = 1.9 →
  add_big_star big_star ss = Some ss.
Proof.
  intros Hin Hs. unfold add_big_star. rewrite bool_decide_eq_false_2; [done|].
  assert (Hf : s ∈ filter (λ s, Star.stellar_mass s >= 1.9) ss).
  { apply list_elem_of_filter. split; [right; done|done]. }
  intros Hlen. apply nil_length_inv in Hlen. rewrite Hlen in Hf.
  by apply elem_of_nil in Hf.
Qed.

(** X18: for a set of stars that is not empty, the initial assignments
    of [main] return, and every star comes out of them with its flags,
    disk radius and disk mass set from its stellar mass (bright above
    1.9 MSun and without a disk, otherwise disked with a disk of a tenth
    of the stellar mass and a radius of 30 au times the root of the mass
    in MSun), with [mass] the sum of stellar mass and disk mass, and with
    the EUV flag down.  The star added when no mass reaches 1.9 MSun makes
    sure that some star is bright, unless a stellar mass is exactly 1.9
    MSun: the test for adding one is [>= 1.9] and the one for the flag is
    [> 1.9], so with all masses at most 1.9 MSun and one of them exactly
    1.9 MSun no star is bright. *)
Theorem initial_stars_flags_and_masses (big_star parsec : R)
    (ss : list Star.t) :
  ss ≠ [] → 2 <= big_star →
  ∃ ss0 ss',
    add_big_star big_star ss = Some ss0
    ∧ initial_stars big_star parsec ss = Some ss'
    ∧ Forall2 initialised ss0 ss'
    ∧ ((∀ s, s ∈ ss → Star.stellar_mass s ≠ 1.9) →
       ∃ s, s ∈ ss' ∧ Star.bright s = true)
    ∧ ((∀ s, s ∈ ss → Star.stellar_mass s <= 1.9) →
       (∃ s, s ∈ ss ∧ Star.stellar_mass s = 1.9) →
       ss0 = ss ∧ ∀ s, s ∈ ss' → Star.bright s = false).
Proof.
  intros Hne Hbig.
  assert (Hadd : ∃ ss0, add_big_star big_star ss = Some ss0).
  { unfold add_big_star. destruct ss as [|s0 ss]; [done|].
    case_bool_decide; simpl; eauto. }
  destruct Hadd as [ss0 Hadd]. exists ss0, (initial_attributes parsec ss0).
  pose proof (initial_attributes_spec parsec ss0) as Hspec.
  split; [done|]. split; [unfold initial_stars; by rewrite Hadd|].
  split; [done|]. split.
  - intros Hno.
    destruct (add_big_star_heavy big_star ss ss0 ltac:(lra) Hadd Hno)
      as (s & Hin & Hs).
    apply list_elem_of_lookup in Hin as [k Hk].
    destruct (Forall2_lookup_l _ _ _ _ _ Hspec Hk) as (s' & Hk' & Hs').
    exists s'. split; [by eapply list_elem_of_lookup_2|].
    destruct Hs' as (_ & _ & -> & _). by apply bool_decide_eq_true_2.
  - intros Hle (s & Hin & Hs).
    rewrite (add_big_star_unchanged big_star ss s Hin Hs) in Hadd.
    injection Hadd as <-. split; [done|].
    intros s' [k Hk']%list_elem_of_lookup.
    destruct (Forall2_lookup_r _ _ _ _ _ Hspec Hk') as (s0 & Hk & Hs').
    destruct Hs' as (_ & _ & -> & _). apply bool_decide_eq_false_2.
    apply list_elem_of_lookup_2 in Hk. specialize (Hle s0 Hk). lra.
Qed.

End InitialFacts.

(** ** The further properties at concrete inputs *)

Module MoreWitnesses.
Import Scenarios MoreScenarios.
Local Open Scope R_scope.

#[local] Existing Instance units.
#[local] Existing Instance collaborators.

(** Two disks and minus one worker. *)
Lemma pool_disks_without_workers_witness :
  (-1 ≤ 0)%Z ∧ Partition.pool_disks [10; 11]%nat (-1) = Some [].
Proof.
  split; [lia|].
  exact (DispatchMore.pool_disks_without_workers [10; 11]%nat (-1) ltac:(lia)).
Defined.

(** One disk and one integrator. *)
Lemma run_disks_evolves_every_disk_once_witness :
  [one_code] ≠ []
  ∧ ∃ pools, Dispatch.run_disks [one_code] [small_star_disk] 1000 = Some pools
             ∧ length pools = 1%nat.
Proof.
  split; [done|].
  destruct (DispatchMore.run_disks_evolves_every_disk_once
              [one_code] [small_star_disk] 1000 ltac:(done))
    as (pools & assigned & Hrun & Hlen & _).
  exists pools. by split.
Defined.

(** One star with a disk: ten integrators asked for, and none. *)
Lemma setup_disks_and_codes_integrators_and_disks_witness :
  length [7%Z] = length [0.5] ∧ Forall (λ m, 0 < m) [0.5]
  ∧ [0.5] ≠ [] ∧ (1 ≤ 10)%Z ∧ (0 ≤ 0)%Z
  ∧ (∃ codes disks,
       Dispatch.setup_disks_and_codes new_disk [7%Z] [21] [0.05] [0.5]
         [0.03] [1e-5] 10 = Some (codes, disks)
       ∧ length codes = 1%nat ∧ length disks = 1%nat)
  ∧ Dispatch.setup_disks_and_codes new_disk [7%Z] [21] [0.05] [0.5]
      [0.03] [1e-5] 0 = None.
Proof.
  assert (Hpos : Forall (λ m, 0 < m) [0.5]).
  { constructor; [lra|constructor]. }
  split; [reflexivity|]. split; [exact Hpos|]. split; [done|].
  split; [lia|]. split; [lia|]. split.
  - pose proof (DispatchMore.setup_disks_and_codes_integrators_and_disks
                  new_disk [7%Z] [21] [0.05] [0.5] [0.03] [1e-5] 10
                  eq_refl eq_refl eq_refl eq_refl eq_refl Hpos) as H.
    cbv zeta in H. destruct H as (Hok & _ & _).
    destruct (Hok ltac:(done) ltac:(lia))
      as (codes & disks & Hrun & Hcodes & _ & Hdisks & _).
    exists codes, disks. split; [exact Hrun|]. split; [exact Hcodes|].
    exact Hdisks.
  - pose proof (DispatchMore.setup_disks_and_codes_integrators_and_disks
                  new_disk [7%Z] [21] [0.05] [0.5] [0.03] [1e-5] 0
                  eq_refl eq_refl eq_refl eq_refl eq_refl Hpos) as H.
    cbv zeta in H. destruct H as (_ & Hraise & _).
    apply Hraise; [done|lia].
Defined.

Lemma far_pair_periastron :
  Encounter.periastron_distance [far_first; far_second] = Some 3.
Proof.
  apply EncounterFacts.periastron_distance_flyby; [lra| | |].
  - unfold Vec3.sub. simpl. f_equal; lra.
  - unfold Vec3.sub. simpl. f_equal; lra.
  - simpl. lra.
Qed.

Lemma far_truncation_radius :
  3 * (1 / 3) * Rpower (Star.mass far_first / Star.mass far_second) 0.2 = 1
  ∧ 3 * (1 / 3) * Rpower (Star.mass far_second / Star.mass far_first) 0.2 = 1.
Proof.
  replace (Star.mass far_first / Star.mass far_second) with 1
    by (simpl; field; lra).
  replace (Star.mass far_second / Star.mass far_first) with 1
    by (simpl; field; lra).
  rewrite EncounterExamples.Rpower_one. lra.
Qed.

(** The far pair: disks of half an au and truncation radii of 1 au. *)
Lemma resolve_encounter_without_truncation_witness :
  0 < Star.mass far_first ∧ 0 < Star.mass far_second
  ∧ Encounter.periastron_distance [far_first; far_second] = Some 3
  ∧ Disk.disk_radius far_first_disk
    <= 3 * (1 / 3) * Rpower (Star.mass far_first / Star.mass far_second) 0.2
  ∧ Disk.disk_radius far_second_disk
    <= 3 * (1 / 3) * Rpower (Star.mass far_second / Star.mass far_first) 0.2
  ∧ ∃ st, Encounter.resolve_encounter [far_first; far_second]
            [Some far_first_disk; Some far_second_disk] 0 0.2 (1 / 3) = Some st
          ∧ Encounter.calls st = []
          ∧ Encounter.disks st = [Some far_first_disk; Some far_second_disk].
Proof.
  assert (Hm0 : 0 < Star.mass far_first) by (simpl; lra).
  assert (Hm1 : 0 < Star.mass far_second) by (simpl; lra).
  destruct far_truncation_radius as [Hr0 Hr1].
  assert (H0 : Disk.disk_radius far_first_disk
               <= 3 * (1 / 3)
                  * Rpower (Star.mass far_first / Star.mass far_second) 0.2).
  { rewrite Hr0. simpl. lra. }
  assert (H1 : Disk.disk_radius far_second_disk
               <= 3 * (1 / 3)
                  * Rpower (Star.mass far_second / Star.mass far_first) 0.2).
  { rewrite Hr1. simpl. lra. }
  split; [exact Hm0|]. split; [exact Hm1|].
  split; [exact far_pair_periastron|]. split; [exact H0|]. split; [exact H1|].
  eexists. split.
  - apply (EncounterMore.resolve_encounter_without_truncation
             far_first far_second (Some far_first_disk) (Some far_second_disk)
             0 0.2 (1 / 3) 3 Hm0 Hm1 far_pair_periastron).
    + intros d [= <-]. exact H0.
    + intros d [= <-]. exact H1.
  - by split.
Defined.

Lemma graze_pair_periastron :
  Encounter.periastron_distance [graze_first; graze_second] = Some 0.6.
Proof.
  apply EncounterFacts.periastron_distance_flyby; [lra| | |].
  - unfold Vec3.sub. simpl. f_equal; lra.
  - unfold Vec3.sub. simpl. f_equal; lra.
  - simpl. lra.
Qed.

Lemma graze_truncation_radius :
  0.6 * (1 / 3) * Rpower (Star.mass graze_first / Star.mass graze_second) 0.2
  = 0.2
  ∧ 0.6 * (1 / 3) * Rpower (Star.mass graze_second / Star.mass graze_first) 0.2
    = 0.2.
Proof.
  replace (Star.mass graze_first / Star.mass graze_second) with 1
    by (simpl; field; lra).
  replace (Star.mass graze_second / Star.mass graze_first) with 1
    by (simpl; field; lra).
  rewrite EncounterExamples.Rpower_one. lra.
Qed.

(** The grazing pair: both disks are cut at 0.2 au. *)
Lemma resolve_encounter_truncates_above_floor_witness :
  0 < Star.mass graze_first ∧ 0 < Star.mass graze_second
  ∧ Encounter.periastron_distance [graze_first; graze_second] = Some 0.6
  ∧ ∃ st, Encounter.resolve_encounter [graze_first; graze_second]
            [Some graze_first_disk; Some graze_second_disk] 5 0.2 (1 / 3)
          = Some st
          ∧ length (Encounter.calls st) = 2%nat.
Proof.
  assert (Hm0 : 0 < Star.mass graze_first) by (simpl; lra).
  assert (Hm1 : 0 < Star.mass graze_second) by (simpl; lra).
  split; [exact Hm0|]. split; [exact Hm1|].
  split; [exact graze_pair_periastron|].
  destruct graze_truncation_radius as [Hr0 Hr1].
  eexists. split.
  - apply (EncounterMore.resolve_encounter_truncates_above_floor
             graze_first graze_second graze_first_disk graze_second_disk
             5 0.2 (1 / 3) 0.6 Hm0 Hm1 graze_pair_periastron).
    + rewrite Hr0. simpl. lra.
    + rewrite Hr1. simpl. lra.
  - reflexivity.
Defined.

Lemma small_star_has_disk :
  Bookkeeping.disk_of [small_star_disk] small_star_index 7
  = Some small_star_disk.
Proof.
  unfold Bookkeeping.disk_of, small_star_index.
  by rewrite lookup_singleton_eq.
Qed.

(** The small star of the cluster meets the bright one. *)
Lemma reported_encounter_truncates_disked_only_witness :
  is_Some (Bookkeeping.disk_of [small_star_disk] small_star_index
             (Star.key lit_small_star))
  ∧ Star.disked bright_star = false
  ∧ ∃ st, MainLoop.resolve_reported_encounter [small_star_disk]
            small_star_index lit_small_star bright_star 0 = Some st.
Proof.
  split; [exists small_star_disk; exact small_star_has_disk|].
  split; [reflexivity|].
  destruct (EncounterMore.reported_encounter_truncates_disked_only
              [small_star_disk] small_star_index lit_small_star bright_star 0)
    as (st & Hrun & _).
  - intros _. exists small_star_disk. exact small_star_has_disk.
  - intros Hd. discriminate Hd.
  - by exists st.
Defined.

Lemma cluster_small_star :
  Particles.with_key 7 (stars cluster) = [lit_small_star].
Proof.
  unfold Particles.with_key. simpl.
  rewrite filter_cons_False by (simpl; lia).
  by rewrite filter_cons_True by done.
Qed.

(** The small star of the cluster. *)
Lemma single_total_radiation_value_witness :
  Particles.with_key 7 (stars cluster) = [lit_small_star]
  ∧ Star.bright lit_small_star = false
  ∧ ∃ radiation g',
      Photoevaporation.single_total_radiation 7 cluster = Some (radiation, g').
Proof.
  split; [exact cluster_small_star|]. split; [reflexivity|].
  eexists _, _.
  exact (RadiationMore.single_total_radiation_value 7 cluster lit_small_star
           cluster_small_star eq_refl).
Defined.

Lemma single_total_radiation_sign_witness :
  Particles.with_key 7 (stars cluster) = [lit_small_star]
  ∧ Star.bright lit_small_star = false
  ∧ 0 < LSun_erg_s ∧ 0 < au_cm
  ∧ ∃ radiation g',
      Photoevaporation.single_total_radiation 7 cluster = Some (radiation, g')
      ∧ 0 <= radiation.
Proof.
  assert (HL : 0 < LSun_erg_s) by (simpl; lra).
  assert (Hau : 0 < au_cm) by (simpl; lra).
  split; [exact cluster_small_star|]. split; [reflexivity|].
  split; [exact HL|]. split; [exact Hau|].
  destruct (RadiationMore.single_total_radiation_sign 7 cluster lit_small_star
              cluster_small_star eq_refl HL Hau)
    as (radiation & g' & Hrun & Hnonneg & _).
  by exists radiation, g'.
Defined.

Lemma bright_star_has_no_disk :
  Bookkeeping.disk_of (disks cluster) (disk_indices cluster) 1 = None.
Proof.
  unfold Bookkeeping.disk_of. simpl. unfold small_star_index.
  by rewrite lookup_singleton_ne by lia.
Qed.

(** The mass loss of the cluster asked for the bright star too. *)
Lemma photoevaporation_mass_loss_needs_disks_witness :
  1%Z ∈ [7%Z; 1%Z]
  ∧ Bookkeeping.disk_of (disks cluster) (disk_indices cluster) 1 = None
  ∧ Photoevaporation.photoevaporation_mass_loss [7%Z; 1%Z] 1 cluster = None.
Proof.
  assert (Hin : 1%Z ∈ [7%Z; 1%Z]) by (right; left).
  split; [exact Hin|]. split; [exact bright_star_has_no_disk|].
  exact (RadiationMore.photoevaporation_mass_loss_needs_disks
           1 [7%Z; 1%Z] cluster 1 Hin bright_star_has_no_disk).
Defined.

(** The cluster, with one worker. *)
Lemma mass_loss_rates_do_not_interfere_witness :
  (1 ≤ 1)%Z ∧ Photoevaporation.well_formed [7%Z] cluster ∧ NoDup [7%Z]
  ∧ ∃ rates,
      Photoevaporation.photoevaporation_mass_loss [7%Z] 1 cluster
      = Some (rates, cluster)
      ∧ length rates = 1%nat.
Proof.
  assert (Hnd : NoDup [7%Z]).
  { apply NoDup_cons. split; [apply not_elem_of_nil|apply NoDup_nil_2]. }
  split; [lia|]. split; [exact Witnesses.cluster_well_formed|].
  split; [exact Hnd|].
  destruct (RadiationMore.mass_loss_rates_do_not_interfere 1 [7%Z] cluster
              ltac:(lia) Witnesses.cluster_well_formed Hnd)
    as (rates & Hrun & Hall).
  exists rates. split; [done|].
  apply Forall2_length in Hall. by rewrite <- Hall.
Defined.

Lemma small_star_synchronised :
  ∃ s', Bookkeeping.update_stars small_star_index [lit_small_star]
          [small_star_disk_dispersed] = Some [s'].
Proof.
  unfold Bookkeeping.update_stars. simpl.
  unfold Bookkeeping.update_star, Bookkeeping.disk_of, small_star_index. simpl.
  rewrite lookup_singleton_eq. simpl. eauto.
Qed.

(** The small star of the cluster after its disk has dispersed. *)
Lemma update_stars_idempotent_witness :
  ∃ ss',
    Bookkeeping.update_stars small_star_index [lit_small_star]
      [small_star_disk_dispersed] = Some ss'
    ∧ Bookkeeping.update_stars small_star_index ss'
        [small_star_disk_dispersed] = Some ss'.
Proof.
  destruct small_star_synchronised as [s' Hs'].
  exists [s']. split; [exact Hs'|].
  exact (proj1 (LoopMore.update_stars_idempotent small_star_index
                  [lit_small_star] [s'] [small_star_disk_dispersed] Hs')).
Defined.

(** From 0 to 2500 yr in steps of 1000 yr. *)
Lemma evolve_times_within_t_end_witness :
  0 < 1000
  ∧ Forall (λ t', 0 < t' ∧ t' <= 2500)
      (MainLoop.evolve_times active_counts 2500 0 1000).
Proof.
  split; [lra|].
  exact (proj1 (LoopMore.evolve_times_within_t_end active_counts 2500 0 1000
                  ltac:(lra))).
Defined.

(** One star of 0.5 MSun: a star of 2 MSun takes its place. *)
Lemma initial_stars_flags_and_masses_witness :
  [small_star] ≠ [] ∧ 2 <= 2
  ∧ ∃ ss', Initial.initial_stars 2 206265 [small_star] = Some ss'
           ∧ length ss' = 1%nat.
Proof.
  split; [done|]. split; [lra|].
  destruct (InitialFacts.initial_stars_flags_and_masses 2 206265 [small_star]
              ltac:(done) ltac:(lra))
    as (ss0 & ss' & Hadd & Hrun & Hall & _).
  exists ss'. split; [done|].
  apply Forall2_length in Hall. rewrite <- Hall.
  unfold Initial.add_big_star in Hadd.
  destruct (bool_decide _) in Hadd; simpl in Hadd; by injection Hadd as <-.
Defined.

End MoreWitnesses.
